(** * Coracle engine2: subscriptions and channel projections

    A shallow embedding of [src/engine2/requests/subscription.ts] (the
    [Subscription] class, [subscribe], [subscribePersistent]) and of the
    NIP-28 channel projection handlers (kinds 40, 41 and 42), followed by
    the properties the specification states about them.

    Conventions.
    - A JavaScript [number] that holds a timestamp, a kind or a timeout is a
      [Z]; an optional field is an [option]; truthiness tests ([if (x)],
      [x || d], [!x]) are written out.
    - [Map] and [Set] are stdpp's [gmap] and [gset]; arrays are lists.
    - A method that mutates [this] is a function from the object to the new
      object and the list of calls it made on its collaborators (timer,
      transport, logger, projection registry, listeners, deferred result),
      in program order.
    - Collaborators that live outside the embedded files are fields of an
      environment record. *)

From Stdlib Require Import ZArith Lia.
From stdpp Require Import base option strings list gmap sets.

Set Warnings "-clear-no-such-hyp".

Local Open Scope string_scope.
Local Open Scope list_scope.
Local Open Scope Z_scope.

(* ===================================================================== *)
(** ** JavaScript values                                                  *)
(* ===================================================================== *)

Module Js.

(** The result of evaluating an expression that may raise. *)
Inductive outcome (A : Type) : Type :=
| Returned (a : A)
| Threw.
Arguments Returned {A} a.
Arguments Threw {A}.

(** hurdak's [tryFunc]: the value, or [undefined] when the thunk raised. *)
Definition tryFunc {A} (r : outcome A) : option A :=
  match r with
  | Returned a => Some a
  | Threw => None
  end.

(** Truthiness of an optional number: [undefined], [null] and [0] are falsy. *)
Definition truthy_num (n : option Z) : bool :=
  match n with
  | Some n => negb (n =? 0)
  | None => false
  end.

(** Truthiness of an optional boolean. *)
Definition truthy_bool (b : option bool) : bool :=
  match b with
  | Some b => b
  | None => false
  end.

(** Truthiness of an optional string: [undefined] and the empty string are falsy. *)
Definition truthy_str (s : option string) : bool :=
  match s with
  | Some s => negb (bool_decide (s = ""))
  | None => false
  end.

(** [s || ""] on an optional string. *)
Definition or_empty (s : option string) : string :=
  match s with
  | Some s => s
  | None => ""
  end.

(** [n || 0] on an optional number. *)
Definition or_zero (n : option Z) : Z :=
  match n with
  | Some n => n
  | None => 0
  end.

(** ramda's [uniqBy]: keep the first element of each key, in order.  The
    accumulator is the set of keys already kept, as in ramda's own loop. *)
Fixpoint uniqBy_from {A} (f : A → string) (kept : gset string) (l : list A) : list A :=
  match l with
  | [] => []
  | x :: l' =>
      if decide (f x ∈ kept) then uniqBy_from f kept l'
      else x :: uniqBy_from f ({[f x]} ∪ kept) l'
  end.

Definition uniqBy {A} (f : A → string) (l : list A) : list A := uniqBy_from f ∅ l.

(** ramda's [uniq] on strings. *)
Definition uniq (l : list string) : list string := uniqBy (λ x, x) l.

End Js.

Import Js.

(* ===================================================================== *)
(** ** Events and filters ([src/engine2/model])                           *)
(* ===================================================================== *)

Module Event.

(** A signed record.  [content] may be absent on the wire; [seen_on] is not
    a field here: the array the subscription attaches to the event is the
    very array it stores in its [seen] map, so a reader of [event.seen_on]
    reads [seen] at [event.id] (see [Subscription.seen_on]). *)
Record t : Type := mk {
  id : string;
  pubkey : string;
  created_at : Z;
  kind : Z;
  tags : list (list string);
  content : option string;
  sig : string;
}.

Definition with_content (c : option string) (e : t) : t :=
  mk (id e) (pubkey e) (created_at e) (kind e) (tags e) c (sig e).

(** [event.content = event.content || ""] *)
Definition default_content (e : t) : t :=
  with_content (Some (or_empty (content e))) e.

#[global] Instance eq_dec : EqDecision t.
Proof. solve_decision. Defined.

End Event.

Module Filter.

Record t : Type := mk {
  ids : option (list string);
  kinds : option (list Z);
  authors : option (list string);
  since : option Z;
  until : option Z;
  limit : option Z;
  tag_values : list (string * list string);
}.

(** ramda's [assoc("since", v)]. *)
Definition assoc_since (v : Z) (f : t) : t :=
  mk (ids f) (kinds f) (authors f) (Some v) (until f) (limit f) (tag_values f).

#[global] Instance eq_dec : EqDecision t.
Proof. solve_decision. Defined.

End Filter.

(* ===================================================================== *)
(** ** Collaborators of the subscription                                  *)
(* ===================================================================== *)

(** A callback passed by a caller ([opts.onEvent], a function given to
    [sub.on]).  Callbacks are opaque: one is identified by a tag, and calling
    it is recorded as a [Notify].  Callbacks are taken to return normally. *)
Definition Listener : Type := nat.

(** The three names the subscription emits under. *)
Inductive channel : Type :=
| OnEvent   (* "event" *)
| OnEose    (* "eose" *)
| OnClose.  (* "close" *)

#[global] Instance channel_eq_dec : EqDecision channel.
Proof. solve_decision. Defined.

(** What [emit] hands to the listeners of a name. *)
Inductive payload : Type :=
| EventP (event : Event.t)
| EoseP (url : string)
| CloseP (events : list Event.t).

#[global] Instance payload_eq_dec : EqDecision payload.
Proof. solve_decision. Defined.

(** The calls a method makes on its collaborators. *)
Inductive call : Type :=
| SetTimeout (ms : Z)                                   (* setTimeout(this.close, ms) *)
| ExecutorSubscribe (urls : list string) (filters : list Filter.t)
| Unsubscribe                                           (* this.sub.unsubscribe() *)
| Cleanup                                               (* this.executor.target.cleanup() *)
| VerifySignature (event : Event.t)
| MatchFilters (filters : list Filter.t) (event : Event.t)
| Warn (msg : string) (event : Event.t)
| Info (msg : string) (relays : list string) (filters : list Filter.t)
| ProjectionsPush (event : Event.t)                     (* projections.push(event) *)
| Emit (p : payload)                                    (* this.emit(name, p) *)
| Notify (l : Listener) (p : payload)                   (* a listener called by emit *)
| Resolve (events : list Event.t).                      (* this.result.resolve(events) *)

#[global] Instance call_eq_dec : EqDecision call.
Proof. solve_decision. Defined.

(** Functions imported by [subscription.ts] whose code is elsewhere:
    nostr-tools ([verifySignature], [matchFilters]), [src/util/nostr]
    ([isShareableRelay]), [src/engine2/queries] ([getUrls], [getExecutor])
    and paravel's executor.  [verifySignature], [getUrls] and the executor
    may raise. *)
Record Env : Type := {
  verifySignature : Event.t → outcome bool;
  matchFilters : list Filter.t → Event.t → bool;
  isShareableRelay : string → bool;
  getUrls : list string → outcome (list string);
  (** [getExecutor(urls).subscribe(filters, {onEvent, onEose})] *)
  executorSubscribe : list string → list Filter.t → outcome unit;
}.

(** Modelled from the spec: [getUrls] of [src/engine2/queries], which is not
    among the embedded files.  Section 4.1: on open the subscription
    "resolves the set of relay endpoints to query (deduplicating equivalent
    URLs)", and "an empty relay set fail[s] fast at open time"; section 7(e)
    lists "no relays supplied" among the conditions surfaced synchronously
    to the caller.  Two URLs are equivalent when [normalize] sends them to
    the same string; the first of each class is kept, in order. *)
Definition spec_getUrls (normalize : string → string) (relays : list string)
  : outcome (list string) :=
  match relays with
  | [] => Threw
  | _ :: _ => Returned (uniq (normalize <$> relays))
  end.

(** Modelled from the spec: the opening of the transport,
    [getExecutor(urls).subscribe(filters, ...)], where [getExecutor] of
    [src/engine2/queries] and the executor it builds are not among the
    embedded files.  Section 4.1: "malformed filters ... fail fast at open
    time"; section 7(e): "empty filter list", and with "no relays supplied"
    "these are the only conditions that should fail fast".  What makes a
    filter malformed is the wire protocol's matter and is a parameter. *)
Definition spec_executorSubscribe (malformed : Filter.t → bool)
    (urls : list string) (filters : list Filter.t) : outcome unit :=
  if bool_decide (filters = []) || existsb malformed filters
  then Threw else Returned ().

(* ===================================================================== *)
(** ** [SubscriptionOpts] and [SubscribeOpts]                             *)
(* ===================================================================== *)

Module Opts.

Record t : Type := mk {
  relays : list string;
  filters : list Filter.t;
  timeout : option Z;
  shouldProject : option bool;
  onEvent : option Listener;
  onEose : option Listener;
  onClose : option Listener;
}.

(** hurdak's [updateIn("filters", f, opts)]. *)
Definition update_filters (f : list Filter.t → list Filter.t) (o : t) : t :=
  mk (relays o) (f (filters o)) (timeout o) (shouldProject o)
     (onEvent o) (onEose o) (onClose o).

End Opts.

(* ===================================================================== *)
(** ** [class Subscription extends EventEmitter]                          *)
(* ===================================================================== *)

Module Subscription.

(** The fields of the object once its constructor has returned: [sub] and
    [executor] are set, and [urls] is what the executor was created for.
    [result] is the deferred completion value ([None] while pending);
    [listeners] is the emitter's table, in registration order.  The random
    [id], which no method reads, is left out. *)
Record t : Type := mk {
  opts : Opts.t;
  urls : list string;
  opened : Z;
  closed : option Z;
  result : option (list Event.t);
  events : list Event.t;
  seen : gmap string (list string);
  eose : gset string;
  listeners : list (channel * Listener);
}.

Definition with_seen (m : gmap string (list string)) (s : t) : t :=
  mk (opts s) (urls s) (opened s) (closed s) (result s) (events s) m (eose s) (listeners s).

Definition with_eose (x : gset string) (s : t) : t :=
  mk (opts s) (urls s) (opened s) (closed s) (result s) (events s) (seen s) x (listeners s).

Definition with_listeners (ls : list (channel * Listener)) (s : t) : t :=
  mk (opts s) (urls s) (opened s) (closed s) (result s) (events s) (seen s) (eose s) ls.

Definition with_closed (c : option Z) (s : t) : t :=
  mk (opts s) (urls s) (opened s) c (result s) (events s) (seen s) (eose s) (listeners s).

Definition with_result (r : option (list Event.t)) (s : t) : t :=
  mk (opts s) (urls s) (opened s) (closed s) r (events s) (seen s) (eose s) (listeners s).

(** [event.seen_on], read through the array shared with [seen]. *)
Definition seen_on (s : t) (event : Event.t) : list string :=
  default [] (seen s !! Event.id event).

(** A deferred settles once: a later [resolve] leaves the value alone. *)
Definition resolve (v : list Event.t) (r : option (list Event.t)) : option (list Event.t) :=
  match r with
  | None => Some v
  | Some _ => r
  end.

(** [this.emit(name, p)]: the call itself, then every listener of the
    name, in registration order. *)
Definition emit (s : t) (c : channel) (p : payload) : list call :=
  Emit p :: ((λ cl, Notify cl.2 p) <$> filter (λ cl, cl.1 = c) (listeners s)).
#[global] Arguments emit : simpl never.

(** [sub.on(name, l)]. *)
Definition on (c : channel) (l : Listener) (s : t) : t :=
  with_listeners (listeners s ++ [(c, l)]) s.

(** [start], lines 37-51.  The timer is armed before the collaborators are
    called; whatever they raise leaves the constructor. *)
Definition start (env : Env) (o : Opts.t) : list call * outcome (list string) :=
  let timer := if truthy_num (Opts.timeout o)
               then [SetTimeout (or_zero (Opts.timeout o))] else [] in
  match getUrls env (Opts.relays o) with
  | Threw => (timer, Threw)
  | Returned us =>
      match executorSubscribe env us (Opts.filters o) with
      | Threw => (timer, Threw)
      | Returned _ => (timer ++ [ExecutorSubscribe us (Opts.filters o)], Returned us)
      end
  end.

(** [new Subscription(opts)] at wall-clock reading [now]. *)
Definition new (env : Env) (now : Z) (o : Opts.t) : list call * outcome t :=
  match start env o with
  | (tr, Threw) => (tr, Threw)
  | (tr, Returned us) => (tr, Returned (mk o us now None None [] ∅ ∅ []))
  end.

(** [close], lines 99-108, with [now] the reading of [Date.now()]. *)
Definition close (now : Z) (s : t) : t * list call :=
  if negb (truthy_num (closed s)) then
    let s1 := with_closed (Some now) s in
    let s2 := with_result (resolve (events s1) (result s1)) s1 in
    (with_listeners [] s2,
     [Resolve (events s1); Unsubscribe; Cleanup] ++ emit s2 OnClose (CloseP (events s2)))
  else (s, []).

(** [onEvent], lines 53-85. *)
Definition onEvent (env : Env) (url : string) (event : Event.t) (s : t) : t * list call :=
  let filters := Opts.filters (opts s) in
  match seen s !! Event.id event with
  | Some seen_on =>
      if negb (bool_decide (url ∈ seen_on)) && isShareableRelay env url
      then (with_seen (<[Event.id event := seen_on ++ [url]]> (seen s)) s, [])
      else (s, [])
  | None =>
      let seen_on := if isShareableRelay env url then [url] else [] in
      let event := Event.default_content event in
      let s := with_seen (<[Event.id event := seen_on]> (seen s)) s in
      if negb (truthy_bool (tryFunc (verifySignature env event))) then
        (s, [VerifySignature event; Warn "Signature verification failed" event])
      else if negb (matchFilters env filters event) then
        (s, [VerifySignature event; MatchFilters filters event;
             Warn "Event failed to match filter" event])
      else
        (s, [VerifySignature event; MatchFilters filters event]
            ++ (if bool_decide (Opts.shouldProject (opts s) ≠ Some false)
                then [ProjectionsPush event] else [])
            ++ emit s OnEvent (EventP event))
  end.

(** [onEose], lines 87-97; [now] is read only if [close] runs. *)
Definition onEose (now : Z) (url : string) (s : t) : t * list call :=
  let tr := emit s OnEose (EoseP url) in
  let s := with_eose ({[url]} ∪ eose s) s in
  if truthy_num (Opts.timeout (opts s))
     && bool_decide (size (eose s) = length (Opts.relays (opts s)))
  then let (s', tr') := close now s in (s', tr ++ tr')
  else (s, tr).

(** [subscribe], lines 117-130.  The logged text, which in the source also
    spells the number of relays, is shortened. *)
Definition subscribe (env : Env) (now : Z) (o : Opts.t) : list call * outcome t :=
  match new env now o with
  | (tr, Threw) => (tr, Threw)
  | (tr, Returned sub) =>
      let reg (c : channel) (l : option Listener) (s : t) : t :=
        match l with Some l => on c l s | None => s end in
      (tr ++ [Info "Starting subscription" (Opts.relays o) (Opts.filters o)],
       Returned (reg OnClose (Opts.onClose o)
                   (reg OnEose (Opts.onEose o)
                      (reg OnEvent (Opts.onEvent o) sub))))
  end.

(** What can happen to a subscription after it was opened. *)
Inductive input : Type :=
| Deliver (url : string) (event : Event.t)   (* the transport calls onEvent *)
| Eose (now : Z) (url : string)              (* the transport calls onEose *)
| Timer (now : Z)                            (* the timeout fires *)
| Close (now : Z)                            (* a caller calls close *)
| On (c : channel) (l : Listener).           (* a caller registers a listener *)

Definition step (env : Env) (i : input) (s : t) : t * list call :=
  match i with
  | Deliver url event => onEvent env url event s
  | Eose now url => onEose now url s
  | Timer now => close now s
  | Close now => close now s
  | On c l => (on c l s, [])
  end.

(** The inputs in order; the calls of all of them, concatenated. *)
Fixpoint run (env : Env) (ins : list input) (s : t) : t * list call :=
  match ins with
  | [] => (s, [])
  | i :: ins' =>
      let (s1, tr1) := step env i s in
      let (s2, tr2) := run env ins' s1 in
      (s2, tr1 ++ tr2)
  end.

(** The wall-clock readings an input carries. *)
Definition reading (i : input) : option Z :=
  match i with
  | Eose now _ | Timer now | Close now => Some now
  | Deliver _ _ | On _ _ => None
  end.

End Subscription.

(* ===================================================================== *)
(** ** [subscribePersistent]                                              *)
(* ===================================================================== *)

Module Persistent.

(** One turn of the loop as the outside world drives it: the reading of
    [Date.now()] when the subscription is constructed, what then happens
    to the subscription, and the value [now()] returns when the loop
    relaunches.  [now] of [src/util/misc] is not among the embedded files:
    its value is an input of the model, in whatever unit it counts (the
    cursor is compared with [created_at], which counts seconds, whereas
    [Date.now()], and so [closed], counts milliseconds). *)
Record epoch : Type := {
  ep_opened : Z;
  ep_inputs : list Subscription.input;
  ep_now : Z;
}.

(** [updateIn("filters", map(assoc("since", now())), opts)], line 137. *)
Definition relaunch (now : Z) (o : Opts.t) : Opts.t :=
  Opts.update_filters (fmap (Filter.assoc_since now)) o.

(** The loop of lines 132-139 over the epochs supplied: the subscriptions it
    opened, each in the state the epoch's inputs left it in.  The loop
    goes round only when [await subscribe(opts).result] returns, that is
    when the deferred was resolved; otherwise it stays at that subscription.
    A constructor that raises rejects the promise of the async function. *)
Fixpoint subscribePersistent (env : Env) (epochs : list epoch) (o : Opts.t)
  : list Subscription.t :=
  match epochs with
  | [] => []
  | ep :: rest =>
      match Subscription.subscribe env (ep_opened ep) o with
      | (_, Threw) => []
      | (_, Returned sub) =>
          let s := (Subscription.run env (ep_inputs ep) sub).1 in
          match Subscription.result s with
          | None => [s]
          | Some _ => s :: subscribePersistent env rest (relaunch (ep_now ep) o)
          end
      end
  end.



End Persistent.

(* ===================================================================== *)
(** ** Channel projections (kinds 40, 41, 42)                             *)
(* ===================================================================== *)

Module Json.

(** What [JSON.parse] returns.  Numbers are integers here, and an object
    lists each of its keys once. *)
#[warnings="-register-all"] Inductive t : Type :=
| Null
| Bool (b : bool)
| Num (n : Z)
| Str (s : string)
| Arr (items : list t)
| Obj (fields : list (string * t)).

Fixpoint assoc (k : string) (fields : list (string * t)) : option t :=
  match fields with
  | [] => None
  | (k', v) :: rest => if decide (k' = k) then Some v else assoc k rest
  end.

(** [v?.k] for a parsed value: only an object has own data properties. *)
Definition get (k : string) (v : t) : option t :=
  match v with
  | Obj fields => assoc k fields
  | _ => None
  end.

Definition truthy (v : option t) : bool :=
  match v with
  | None | Some Null => false
  | Some (Bool b) => b
  | Some (Num n) => negb (n =? 0)
  | Some (Str s) => negb (bool_decide (s = ""))
  | Some (Arr _) | Some (Obj _) => true
  end.

End Json.

Module Nip28.

Record t : Type := mk {
  owner : option string;
  joined : option bool;
}.

Definition empty : t := mk None None.

End Nip28.

Module Channel.

(** A channel cell.  A field that the object does not have is [None];
    [updated_at] is the timestamp [updateKey] keeps. *)
Record t : Type := mk {
  id : option string;
  type : option string;
  meta : option Json.t;
  relays : option (list string);
  messages : option (list Event.t);
  last_sent : option Z;
  last_received : option Z;
  last_checked : option Z;
  nip28 : option Nip28.t;
  updated_at : option Z;
}.

(** The object [{}]. *)
Definition empty : t := mk None None None None None None None None None None.

(** ramda's [assocPath(["nip28", "owner"], v)]. *)
Definition assoc_nip28_owner (v : string) (c : t) : t :=
  mk (id c) (type c) (meta c) (relays c) (messages c) (last_sent c)
     (last_received c) (last_checked c)
     (Some (Nip28.mk (Some v) (Nip28.joined (default Nip28.empty (nip28 c)))))
     (updated_at c).

Definition with_last_sent (v : Z) (c : t) : t :=
  mk (id c) (type c) (meta c) (relays c) (messages c) (Some v)
     (last_received c) (last_checked c) (nip28 c) (updated_at c).

Definition with_last_received (v : Z) (c : t) : t :=
  mk (id c) (type c) (meta c) (relays c) (messages c) (last_sent c)
     (Some v) (last_checked c) (nip28 c) (updated_at c).

End Channel.

Module Projections.

(** Helpers of the handlers whose code is elsewhere: [JSON.parse], and the
    two [Tags] queries of [src/util/nostr] the handlers use. *)
Record Env : Type := {
  json_parse : string → outcome Json.t;
  (** [Tags.from(e).getMeta(k)] *)
  getMeta : string → Event.t → option string;
  (** [Tags.from(e).relays()] *)
  tag_relays : Event.t → list string;
}.

(** The two stores of [src/engine2/state] the handlers touch: [channels],
    keyed by channel id, and the public keys of [keys]. *)
Record State : Type := mkState {
  channels : gmap string Channel.t;
  keys : list string;
}.

Definition with_channels (m : gmap string Channel.t) (st : State) : State :=
  mkState m (keys st).

(** Modelled from the spec: the cell accessor of the Keyed Reactive Store,
    which is not among the embedded files.  Section 4.4: [get()] "returns
    current value or undefined"; [update(fn)] "applies fn to the current
    value (or undefined) and stores the result". *)
Definition key_get (k : string) (m : gmap string Channel.t) : option Channel.t :=
  m !! k.

Definition key_update (k : string) (fn : option Channel.t → Channel.t)
    (m : gmap string Channel.t) : gmap string Channel.t :=
  <[k := fn (m !! k)]> m.

(** The [{meta, relays}] object both metadata handlers pass to [updateKey]. *)
Record updates : Type := {
  u_meta : Json.t;
  u_relays : list string;
}.

(** Modelled from the spec: [updateKey] of [src/engine2/projections/core],
    which is not among the embedded files.  Section 4.3: a handler
    updating a timestamped cell must "compare the event's embedded logical
    timestamp, not wall-clock arrival time, and keep the maximum".  The
    fields of [u] are written when the cell is new or older than
    [timestamp], and the cell then carries [timestamp]; [modify], the
    fourth argument of the call in the kind-40 handler, is applied to the
    record before it is stored. *)
Definition updateKey (k : string) (timestamp : Z) (u : updates)
    (modify : Channel.t → Channel.t) (m : gmap string Channel.t)
  : gmap string Channel.t :=
  let record := default Channel.empty (key_get k m) in
  let newer := match Channel.updated_at record with
               | None => true
               | Some seen => seen <? timestamp
               end in
  let record' :=
    if newer then
      Channel.mk (Channel.id record) (Channel.type record) (Some (u_meta u))
        (Some (u_relays u)) (Channel.messages record) (Channel.last_sent record)
        (Channel.last_received record) (Channel.last_checked record)
        (Channel.nip28 record) (Some timestamp)
    else record in
  <[k := modify record']> m.

(** [tryJson(() => JSON.parse(e.content))]: [undefined] when parsing
    raises, as it does on a missing [content]. *)
Definition parse_content (env : Env) (e : Event.t) : option Json.t :=
  match Event.content e with
  | Some c => tryFunc (json_parse env c)
  | None => None
  end.

(** [projections.addHandler(40, ...)], lines 9-21. *)
Definition handler40 (env : Env) (e : Event.t) (st : State) : State :=
  let meta := parse_content env e in
  let relays := tag_relays env e in
  match meta with
  | Some m =>
      if Json.truthy (Json.get "name" m) then
        with_channels
          (updateKey (Event.id e) (Event.created_at e)
             {| u_meta := m; u_relays := relays |}
             (Channel.assoc_nip28_owner (Event.pubkey e)) (channels st)) st
      else st
  | None => st
  end.

(** [channel?.nip28?.owner] *)
Definition recorded_owner (channel : option Channel.t) : option string :=
  match channel with
  | Some c =>
      match Channel.nip28 c with
      | Some n => Nip28.owner n
      | None => None
      end
  | None => None
  end.

(** [projections.addHandler(41, ...)], lines 23-42. *)
Definition handler41 (env : Env) (e : Event.t) (st : State) : State :=
  let channelId := getMeta env "e" e in
  if negb (truthy_str channelId) then st else
  let channelId := or_empty channelId in
  let channel := key_get channelId (channels st) in
  if bool_decide (Some (Event.pubkey e) ≠ recorded_owner channel) then st else
  let meta := parse_content env e in
  let relays := tag_relays env e in
  match meta with
  | Some m =>
      if Json.truthy (Json.get "name" m) then
        with_channels
          (updateKey channelId (Event.created_at e)
             {| u_meta := m; u_relays := relays |} (λ c, c) (channels st)) st
      else st
  | None => st
  end.

(** The function given to [update] by the kind-42 handler, lines 98-114. *)
Definition add_message (env : Env) (pubkeys : list string) (channelId : string)
    (e : Event.t) (channel : option Channel.t) : Channel.t :=
  let c := default Channel.empty channel in
  let updates :=
    Channel.mk (Some channelId) (Some "nip28") (Channel.meta c)
      (Some (uniq (tag_relays env e ++ default [] (Channel.relays c))))
      (Some (uniqBy Event.id ([e] ++ default [] (Channel.messages c))))
      (Channel.last_sent c) (Channel.last_received c) (Channel.last_checked c)
      (Channel.nip28 c) (Channel.updated_at c) in
  if bool_decide (Event.pubkey e ∈ pubkeys) then
    Channel.with_last_sent
      (Z.max (or_zero (Channel.last_sent updates)) (Event.created_at e)) updates
  else
    Channel.with_last_received
      (Z.max (or_zero (Channel.last_received updates)) (Event.created_at e)) updates.

(** [projections.addHandler(42, ...)], lines 89-115. *)
Definition handler42 (env : Env) (e : Event.t) (st : State) : State :=
  let channelId := getMeta env "e" e in
  let pubkeys := keys st in
  if negb (truthy_str channelId) then st else
  with_channels
    (key_update (or_empty channelId) (add_message env pubkeys (or_empty channelId) e)
       (channels st)) st.

End Projections.

(* ===================================================================== *)
(** ** The router ([src/unnamed/part_000])                                *)
(* ===================================================================== *)

Module Config.

(** [HistoryItem["config"]]; [context] is a [Record<string, any>], its
    values taken to be JSON values. *)
Record t : Type := mk {
  id : option string;
  mini : option bool;
  modal : option bool;
  virtual : option bool;
  noEscape : option bool;
  replace : option bool;
  context : option (gmap string Json.t);
}.

(** The default [config = {}]. *)
Definition empty : t := mk None None None None None None None.

(** [{...config, context: c}] *)
Definition with_context (c : option (gmap string Json.t)) (config : t) : t :=
  mk (id config) (mini config) (modal config) (virtual config) (noEscape config)
     (replace config) c.

(** [{...config, modal: true}] *)
Definition with_modal (config : t) : t :=
  mk (id config) (mini config) (Some true) (virtual config) (noEscape config)
     (replace config) (context config).

(** [{...config, replace: true}] *)
Definition with_replace (config : t) : t :=
  mk (id config) (mini config) (modal config) (virtual config) (noEscape config)
     (Some true) (context config).

End Config.

Module Route.

(** A registered route.  Components and their decoding options are opaque
    to the router; each is a tag. *)
Record t : Type := mk {
  path : string;
  component : nat;
  opts : option nat;
}.

End Route.

Module HistoryItem.

Record t : Type := mk {
  path : string;
  params : gmap string Json.t;
  config : Config.t;
  route : Route.t;
}.

(** [h.config.modal] and [h.config.virtual] as conditions. *)
Definition is_modal (h : t) : Prop := truthy_bool (Config.modal (config h)) = true.
Definition is_virtual (h : t) : Prop := truthy_bool (Config.virtual (config h)) = true.

#[global] Instance is_modal_dec h : Decision (is_modal h).
Proof. unfold is_modal. apply _. Defined.

#[global] Instance is_virtual_dec h : Decision (is_virtual h).
Proof. unfold is_virtual. apply _. Defined.

End HistoryItem.

Module RouterExtension.

(** [asPath], lines 37-45: the truthy parts joined by a slash, with a
    slash in front unless the result is empty or has one. *)
Definition asPath (parts : list (option string)) : string :=
  let path := String.concat "/" (omap (λ p, if truthy_str p then p else None) parts) in
  if negb (bool_decide (path = "")) && negb (String.prefix "/" path)
  then String.append "/" path else path.

(** The extension's [params] and its [getId]; the back reference to the
    router is passed to the methods that use it. *)
Record t : Type := mk {
  path : string;
  queryParams : option (gmap string Json.t);
  context : option (gmap string Json.t);
  getId : string → string;
}.

(** [new RouterExtension(router, {path}, getId)], with [identity] for an
    absent [getId]. *)
Definition make (path : string) (getId : option (string → string)) : t :=
  mk path None None (default (λ v, v) getId).

(** [clone], line 74: the given params over the extension's own; the
    constructor is not handed [getId], so the clone has the default. *)
Definition clone (path' : option string) (queryParams' context' : option (gmap string Json.t))
    (ext : t) : t :=
  mk (default (path ext) path')
     (match queryParams' with Some q => Some q | None => queryParams ext end)
     (match context' with Some c => Some c | None => context ext end)
     (λ v, v).

(** [at], line 76. *)
Definition at_ (p : option string) (ext : t) : t :=
  clone (Some (asPath [Some (path ext); p])) None None ext.

(** [of], line 72. *)
Definition of_ (value : string) (ext : t) : t :=
  at_ (Some (getId ext value)) ext.

(** [qp], line 78: [{...this.queryParams, ...queryParams}], later keys win. *)
Definition qp (q : gmap string Json.t) (ext : t) : t :=
  clone None (Some (q ∪ default ∅ (queryParams ext))) None ext.

(** [cx], line 80. *)
Definition cx (c : gmap string Json.t) (ext : t) : t :=
  clone None None (Some (c ∪ default ∅ (context ext))) ext.

End RouterExtension.

Module Router.

(** What the router takes from elsewhere: [pick] of svelte-routing, which
    finds the route matching a path and the parameters it binds, and the
    text of [new URLSearchParams(queryParams)]. *)
Record Env : Type := {
  pick : list Route.t → string → option (Route.t * gmap string Json.t);
  searchParams : gmap string Json.t → string;
}.

(** The calls on the browser's history. *)
Inductive effect : Type :=
| Navigate (path : string) (replace : option bool)  (* globalHistory.navigate *)
| Back.                                             (* window.history.back() *)

(** The router: its routes, its extensions by path, and the value of the
    [history] store, newest entry first. *)
Record t : Type := mk {
  routes : list Route.t;
  extensions : gmap string RouterExtension.t;
  history : list HistoryItem.t;
}.

Definition with_history (h : list HistoryItem.t) (r : t) : t :=
  mk (routes r) (extensions r) h.

(** What a method leaves behind: the router, the calls it made, and whether
    it returned or raised. *)
Definition result : Type := t * list effect * outcome unit.

(** The derived stores, lines 105-109. *)
Definition nonVirtual (r : t) : list HistoryItem.t :=
  filter (λ h, ¬ HistoryItem.is_virtual h) (history r).

Definition pages (r : t) : list HistoryItem.t :=
  filter (λ h, ¬ HistoryItem.is_modal h) (nonVirtual r).

Definition page (r : t) : option HistoryItem.t := head (pages r).

Fixpoint takeWhile {A} (P : A → Prop) `{!∀ x, Decision (P x)} (l : list A) : list A :=
  match l with
  | [] => []
  | x :: l' => if decide (P x) then x :: takeWhile P l' else []
  end.

Fixpoint dropWhile {A} (P : A → Prop) `{!∀ x, Decision (P x)} (l : list A) : list A :=
  match l with
  | [] => []
  | x :: l' => if decide (P x) then dropWhile P l' else l
  end.

Definition modals (r : t) : list HistoryItem.t :=
  takeWhile HistoryItem.is_modal (nonVirtual r).

Definition modal (r : t) : option HistoryItem.t := head (modals r).

(** [register], lines 136-138. *)
Definition register (path : string) (component : nat) (opts : option nat) (r : t) : t :=
  mk (routes r ++ [Route.mk path component opts]) (extensions r) (history r).

(** [go], lines 140-166.  When no route matches, the error leaves before
    the store is touched. *)
Definition go (env : Env) (path : string) (config : Config.t) (r : t) : result :=
  let path := if negb (String.prefix "/" path) then String.append "/" path else path in
  match pick env (routes r) path with
  | None => (r, [], Threw)
  | Some (route, params) =>
      let h := if truthy_bool (Config.replace config)
               then drop 1 (history r) else history r in
      (with_history (HistoryItem.mk path params config route :: take 100 h) r,
       if negb (truthy_bool (Config.virtual config))
       then [Navigate path (Config.replace config)] else [],
       Returned ())
  end.

(** [pop], lines 168-180.  On an empty history [$history[0].config] raises. *)
Definition pop (r : t) : result :=
  match history r with
  | [] => (r, [], Threw)
  | [_] => (r, [], Returned ())
  | top :: rest =>
      if decide (HistoryItem.is_virtual top)
      then (with_history rest r, [], Returned ())
      else (r, [Back], Returned ())
  end.

(** [remove], lines 182-184; [id] may be [undefined], which [===] equates
    with the [id] of an entry that has none. *)
Definition remove (id : option string) (r : t) : t :=
  with_history (filter (λ h, Config.id (HistoryItem.config h) ≠ id) (history r)) r.

(** [clearModals], lines 186-196.  The loop removes entries from the array
    the store holds; when it runs out of entries, [$history[0].config]
    raises and the store is left holding the emptied array. *)
Definition clearModals (r : t) : result :=
  match dropWhile HistoryItem.is_modal (history r) with
  | [] => (with_history [] r, [], Threw)
  | top :: rest =>
      (with_history (top :: rest) r, [Navigate (HistoryItem.path top) None], Returned ())
  end.

(** The callback of [listen], lines 116-133, on a location with the given
    [pathname] and [search]. *)
Definition onLocation (env : Env) (pathname search : string) (r : t) : result :=
  let path := if negb (bool_decide (search = ""))
              then String.append pathname search else pathname in
  if bool_decide (HistoryItem.path <$> nonVirtual r !! 1%nat = Some path) then
    (with_history (if bool_decide (2 ≤ length (history r))%nat
                   then drop 1 (history r) else history r) r,
     [], Returned ())
  else
    match nonVirtual r with
    | [] => (r, [], Threw)
    | top :: _ =>
        if bool_decide (path ≠ HistoryItem.path top)
        then go env path Config.empty r
        else (r, [], Returned ())
    end.

(** [extend], lines 200-202: the assignments made to [this.extensions], by
    key.  [at] and [init], which read that plain object by property lookup
    (and so also find what every object inherits, and what an assignment to
    a key such as [__proto__] does to it), are not embedded. *)
Definition extend (path : string) (getId : option (string → string)) (r : t) : t :=
  mk (routes r) (<[path := RouterExtension.make path getId]> (extensions r)) (history r).

(** The extension's [go], lines 82-90. *)
Definition ext_go (env : Env) (ext : RouterExtension.t) (config : Config.t) (r : t) : result :=
  let path := match RouterExtension.queryParams ext with
              | Some q => String.append (RouterExtension.path ext)
                            (String.append "?" (searchParams env q))
              | None => RouterExtension.path ext
              end in
  go env path (Config.with_context (RouterExtension.context ext) config) r.

(** [push], [open], [replace] and [replaceModal], lines 92-98. *)
Definition push (env : Env) (ext : RouterExtension.t) (config : Config.t) (r : t) : result :=
  ext_go env ext config r.

Definition open (env : Env) (ext : RouterExtension.t) (config : Config.t) (r : t) : result :=
  ext_go env ext (Config.with_modal config) r.

Definition replace (env : Env) (ext : RouterExtension.t) (config : Config.t) (r : t) : result :=
  ext_go env ext (Config.with_replace config) r.

Definition replaceModal (env : Env) (ext : RouterExtension.t) (config : Config.t) (r : t)
  : result :=
  ext_go env ext (Config.with_modal (Config.with_replace config)) r.

(** What is done to a router after its construction: the calls of its
    users and the location changes the browser reports to [listen]. *)
Inductive call : Type :=
| Go (path : string) (config : Config.t)
| Pop
| Remove (id : option string)
| ClearModals
| Location (pathname search : string)
| Register (path : string) (component : nat) (opts : option nat)
| Extend (path : string) (getId : option (string → string)).

Definition step (env : Env) (c : call) (r : t) : result :=
  match c with
  | Go path config => go env path config r
  | Pop => pop r
  | Remove id => (remove id r, [], Returned ())
  | ClearModals => clearModals r
  | Location pathname search => onLocation env pathname search r
  | Register path component opts => (register path component opts r, [], Returned ())
  | Extend path getId => (extend path getId r, [], Returned ())
  end.

(** The calls one after another, each on what the one before left, whether
    it returned or raised. *)
Fixpoint run (env : Env) (cs : list call) (r : t) : t :=
  match cs with
  | [] => r
  | c :: cs' => run env cs' (step env c r).1.1
  end.

(** [go]'s first step: a path is given a slash in front unless it has one. *)
Definition rooted (path : string) : string :=
  if negb (String.prefix "/" path) then String.append "/" path else path.

(** The path an extension hands to the router's [go]: its own, followed by
    its query when it has one. *)
Definition target (env : Env) (ext : RouterExtension.t) : string :=
  match RouterExtension.queryParams ext with
  | Some q => String.append (RouterExtension.path ext)
                (String.append "?" (searchParams env q))
  | None => RouterExtension.path ext
  end.

(** The path of a location as [listen] reads it. *)
Definition location_path (pathname search : string) : string :=
  if negb (bool_decide (search = "")) then String.append pathname search else pathname.

(** An entry whose path begins with a slash. *)
Definition is_rooted (h : HistoryItem.t) : Prop :=
  String.prefix "/" (HistoryItem.path h) = true.

End Router.

(* ===================================================================== *)
(** ** A reference environment and the scenario of section 8             *)
(* ===================================================================== *)

Module Fixture.

(** NIP-01 matching of one filter: every constraint present must hold. *)
Definition matchFilter (f : Filter.t) (e : Event.t) : bool :=
  match Filter.ids f with Some l => bool_decide (Event.id e ∈ l) | None => true end
  && match Filter.kinds f with Some l => bool_decide (Event.kind e ∈ l) | None => true end
  && match Filter.authors f with Some l => bool_decide (Event.pubkey e ∈ l) | None => true end
  && match Filter.since f with Some t => t <=? Event.created_at e | None => true end
  && match Filter.until f with Some t => Event.created_at e <=? t | None => true end
  && forallb (λ c : string * list string,
                existsb (λ tag, match tag with
                                | name :: value :: _ =>
                                    bool_decide (name = c.1) && bool_decide (value ∈ c.2)
                                | _ => false
                                end) (Event.tags e))
             (Filter.tag_values f).

(** A stand-in for what the protocol calls a malformed filter: one that
    asks for a negative number of events. *)
Definition malformed (f : Filter.t) : bool :=
  match Filter.limit f with
  | Some n => n <? 0
  | None => false
  end.

(** Reference collaborators: a signature is good unless it is the string
    ["forged"], a filter list matches when one of its filters does, every
    [wss://] URL is shareable, [getUrls] is [spec_getUrls] with URLs
    equivalent only to themselves, and the transport is opened by
    [spec_executorSubscribe]. *)
Definition env : Env := {|
  verifySignature e := Returned (negb (bool_decide (Event.sig e = "forged")));
  matchFilters fs e := existsb (λ f, matchFilter f e) fs;
  isShareableRelay url := String.prefix "wss://" url;
  getUrls := spec_getUrls (λ url, url);
  executorSubscribe := spec_executorSubscribe malformed;
|}.

Definition R1 : string := "wss://r1.example".
Definition R2 : string := "wss://r2.example".

Definition channelX : Filter.t :=
  Filter.mk None (Some [42]) None None None None [("e", ["channel-X"])].

(** [e1 (id=A, created_at=100)], a kind-42 message in channel-X. *)
Definition e1 : Event.t :=
  Event.mk "A" "alice" 100 42 [["e"; "channel-X"]] (Some "hello") "signed".

(** [relays=[R1,R2]], [filters=[{kind:42, "#e":"channel-X"}]],
    [timeout=5000]; listener 7 is the caller's [onEvent]. *)
Definition opts : Opts.t :=
  Opts.mk [R1; R2] [channelX] (Some 5000) None (Some 7%nat) None None.

(** R1 delivers [e1], R2 delivers it again, then both signal EOSE, at
    readings 1200 and 1300 of a clock that showed 1000 at open. *)
Definition inputs : list Subscription.input :=
  [Subscription.Deliver R1 e1; Subscription.Deliver R2 e1;
   Subscription.Eose 1200 R1; Subscription.Eose 1300 R2].

(** The subscription after the scenario and every call it made. *)
Definition outcome_of (o : Opts.t) (ins : list Subscription.input)
  : option (Subscription.t * list call) :=
  match Subscription.subscribe env 1000 o with
  | (tr, Returned sub) =>
      let (s, tr') := Subscription.run env ins sub in Some (s, tr ++ tr')
  | (_, Threw) => None
  end.

(** A second message of the channel, with another id. *)
Definition e2 : Event.t :=
  Event.mk "B" "bob" 200 42 [["e"; "channel-X"]] (Some "late") "signed".

(** [e1] with a signature that does not verify. *)
Definition e1_forged : Event.t :=
  Event.mk "A" "alice" 100 42 [["e"; "channel-X"]] (Some "hello") "forged".

(** Two turns of the persistent loop: the scenario, relaunched at 1400,
    then a subscription that nothing happens to yet. *)
Definition epochs : list Persistent.epoch :=
  [ {| Persistent.ep_opened := 1000; Persistent.ep_inputs := inputs;
       Persistent.ep_now := 1400 |};
    {| Persistent.ep_opened := 1400; Persistent.ep_inputs := [];
       Persistent.ep_now := 1500 |} ].




(** Stand-ins for the helpers of the handlers: the text of a content is
    taken to be the channel name (an empty text does not parse),
    [getMeta(k)] is the value of the first tag named [k], and the relays
    of an event are the shareable URLs among its tag values. *)
Definition penv : Projections.Env := {|
  Projections.json_parse c :=
    if decide (c = "") then Threw else Returned (Json.Obj [("name", Json.Str c)]);
  Projections.getMeta k e :=
    head (omap (λ tag, match tag with
                       | name :: value :: _ => if decide (name = k) then Some value else None
                       | _ => None
                       end) (Event.tags e));
  Projections.tag_relays e :=
    uniq (filter (λ v, String.prefix "wss://" v = true) (concat (Event.tags e)));
|}.

(** A kind-41 update of channel-X signed by mallory. *)
Definition e41 : Event.t :=
  Event.mk "C" "mallory" 300 41 [["e"; "channel-X"]] (Some "pwned") "signed".

(** A store in which channel-X belongs to alice. *)
Definition store : Projections.State :=
  Projections.mkState
    {[ "channel-X" :=
         Channel.mk (Some "channel-X") (Some "nip28") (Some (Json.Obj [("name", Json.Str "general")]))
           (Some [R1]) None None None None (Some (Nip28.mk (Some "alice") None)) (Some 50) ]}
    ["alice"].

(** The subscription of section 8 as [subscribe] returns it. *)
Definition fresh : Subscription.t :=
  Subscription.mk opts [R1; R2] 1000 None None [] ∅ ∅ [(OnEvent, 7%nat)].

(** A relay that is not in the relay list. *)
Definition R3 : string := "wss://r3.example".

(** The subscription of section 8 after R1 has signalled EOSE. *)
Definition after_R1_eose : Subscription.t :=
  Subscription.mk opts [R1; R2] 1000 None None [] ∅ {[R1]} [(OnEvent, 7%nat)].

(** The subscription of section 8 opened without a timeout. *)
Definition opts_untimed : Opts.t :=
  Opts.mk [R1; R2] [channelX] None None (Some 7%nat) None None.

Definition fresh_untimed : Subscription.t :=
  Subscription.mk opts_untimed [R1; R2] 1000 None None [] ∅ ∅ [(OnEvent, 7%nat)].

(** Two turns offered to the persistent loop over the subscription without
    a timeout: both relays signal EOSE in the first. *)
Definition epochs_untimed : list Persistent.epoch :=
  [ {| Persistent.ep_opened := 1000;
       Persistent.ep_inputs := [Subscription.Eose 1200 R1; Subscription.Eose 1300 R2];
       Persistent.ep_now := 1400 |};
    {| Persistent.ep_opened := 1400; Persistent.ep_inputs := [];
       Persistent.ep_now := 1500 |} ].

(** Three turns of the persistent loop, the first two ended by the timer. *)
Definition epochs3 : list Persistent.epoch :=
  [ {| Persistent.ep_opened := 1000; Persistent.ep_inputs := [Subscription.Timer 6000];
       Persistent.ep_now := 6001 |};
    {| Persistent.ep_opened := 6001; Persistent.ep_inputs := [Subscription.Timer 11001];
       Persistent.ep_now := 11002 |};
    {| Persistent.ep_opened := 11002; Persistent.ep_inputs := [];
       Persistent.ep_now := 16000 |} ].

(** [e2] without content. *)
Definition e2_mute : Event.t :=
  Event.mk "B" "bob" 200 42 [["e"; "channel-X"]] None "signed".

(** A kind-41 update of channel-X by its owner whose content does not parse. *)
Definition e41_garbled : Event.t :=
  Event.mk "D" "alice" 300 41 [["e"; "channel-X"]] (Some "") "signed".

(** A router environment in which every path matches the one route of the
    list whose path it is, binding nothing. *)
Definition renv : Router.Env := {|
  Router.pick routes path :=
    (λ route, (route, ∅)) <$> head (filter (λ route, Route.path route = path) routes);
  Router.searchParams q := "";
|}.

Definition home : HistoryItem.t :=
  HistoryItem.mk "/" ∅ Config.empty (Route.mk "/" 1 None).

Definition login : HistoryItem.t :=
  HistoryItem.mk "/login" ∅ (Config.with_modal Config.empty) (Route.mk "/login" 2 None).

Definition menu : HistoryItem.t :=
  HistoryItem.mk "/menu" ∅
    (Config.mk None None None (Some true) None None None) (Route.mk "/menu" 3 None).

(** A router with three routes whose history shows a virtual menu over a
    login modal over the home page. *)
Definition router : Router.t :=
  Router.mk [Route.mk "/" 1 None; Route.mk "/login" 2 None; Route.mk "/menu" 3 None]
    ∅ [menu; login; home].

(** The extension for the login path. *)
Definition login_ext : RouterExtension.t := RouterExtension.make "login" None.

(** The router showing the home page only. *)
Definition router_home : Router.t :=
  Router.mk [Route.mk "/" 1 None; Route.mk "/login" 2 None; Route.mk "/menu" 3 None]
    ∅ [home].

(** The same relay listed twice. *)
Definition opts_twice : Opts.t :=
  Opts.mk [R1; R1] [channelX] (Some 5000) None (Some 7%nat) None None.

(** The channel store after the kind-42 handler has been given, in order,
    the events a trace pushed to the Projection Registry. *)
Definition channels_after (tr : list call) : gmap string Channel.t :=
  Projections.channels
    (foldl (λ st c, match c with
                    | ProjectionsPush e => Projections.handler42 penv e st
                    | _ => st
                    end)
       (Projections.mkState ∅ []) tr).

End Fixture.

(* ===================================================================== *)
(** ** Reading a trace                                                    *)
(* ===================================================================== *)

(** The events handed to listener [l] on the live stream, in order. *)
Definition stream_of (l : Listener) (tr : list call) : list Event.t :=
  omap (λ c, match c with
             | Notify l' (EventP e) => if decide (l' = l) then Some e else None
             | _ => None
             end) tr.

(** The events pushed to the Projection Registry, in order. *)
Definition projected (tr : list call) : list Event.t :=
  omap (λ c, match c with ProjectionsPush e => Some e | _ => None end) tr.

(** The events handed to any listener of the live stream, in order. *)
Definition heard (tr : list call) : list Event.t :=
  omap (λ c, match c with Notify _ (EventP e) => Some e | _ => None end) tr.

(** The events [emit] was called with under "event", in order. *)
Definition emitted (tr : list call) : list Event.t :=
  omap (λ c, match c with Emit (EventP e) => Some e | _ => None end) tr.

(** How many events of a list carry the id [ident]. *)
Definition occurrences (ident : string) (l : list Event.t) : nat :=
  length (filter (λ e, Event.id e = ident) l).

(** Whether the transport delivers an event with id [ident] among the inputs. *)
Definition delivers (ident : string) (ins : list Subscription.input) : bool :=
  existsb (λ i, match i with
                | Subscription.Deliver _ e => bool_decide (Event.id e = ident)
                | _ => false
                end) ins.

(** Whether a caller or the timer calls [close] among the inputs. *)
Definition closes (ins : list Subscription.input) : bool :=
  existsb (λ i, match i with
                | Subscription.Timer _ | Subscription.Close _ => true
                | _ => false
                end) ins.

(** The events whose signature was checked, in order. *)
Definition verified (tr : list call) : list Event.t :=
  omap (λ c, match c with VerifySignature e => Some e | _ => None end) tr.

(** The events re-checked against the filters, in order. *)
Definition matched (tr : list call) : list Event.t :=
  omap (λ c, match c with MatchFilters _ e => Some e | _ => None end) tr.

(** No check, push or emission in a trace concerns the id [ident]. *)
Definition silent_about (ident : string) (tr : list call) : Prop :=
  occurrences ident (verified tr) = 0%nat
  ∧ occurrences ident (matched tr) = 0%nat
  ∧ occurrences ident (projected tr) = 0%nat
  ∧ occurrences ident (emitted tr) = 0%nat.



(** How many times the transport was released. *)
Definition unsubscribes (tr : list call) : nat :=
  length (filter (λ c, c = Unsubscribe) tr).

Definition cleanups (tr : list call) : nat :=
  length (filter (λ c, c = Cleanup) tr).

(** The completion values passed to the deferred, in order. *)
Definition resolved (tr : list call) : list (list Event.t) :=
  omap (λ c, match c with Resolve evs => Some evs | _ => None end) tr.

(** The calls of a delivery that is dropped: the two checks and the logger. *)
Definition check_or_log (c : call) : Prop :=
  match c with
  | VerifySignature _ | MatchFilters _ _ | Warn _ _ => True
  | _ => False
  end.


(** [Date.now()] does not read zero. *)
Definition nonzero_reading (i : Subscription.input) : Prop :=
  ∀ now, Subscription.reading i = Some now → now ≠ 0.

(** The URLs of the end-of-stored-events signals among the inputs, in order. *)
Definition eose_urls (ins : list Subscription.input) : list string :=
  omap (λ i, match i with Subscription.Eose _ url => Some url | _ => None end) ins.

(** Whether a caller registers a listener among the inputs. *)
Definition registers (ins : list Subscription.input) : bool :=
  existsb (λ i, match i with Subscription.On _ _ => true | _ => false end) ins.

(** Every attribution list names shareable relays only, each once. *)
Definition attribution_clean (env : Env) (s : Subscription.t) : Prop :=
  ∀ ident l, Subscription.seen s !! ident = Some l →
             NoDup l ∧ Forall (λ url, isShareableRelay env url = true) l.

(** What [onEvent] has established of an event it lets through. *)
Definition accepted (env : Env) (filters : list Filter.t) (e : Event.t) : Prop :=
  truthy_bool (tryFunc (verifySignature env e)) = true
  ∧ matchFilters env filters e = true
  ∧ is_Some (Event.content e).

(** The deferred and the closed-at field agree. *)
Definition settled_iff_closed (s : Subscription.t) : Prop :=
  (Subscription.result s = None ∧ truthy_num (Subscription.closed s) = false)
  ∨ (is_Some (Subscription.result s) ∧ truthy_num (Subscription.closed s) = true).

(** [l] is the one listener of the live stream. *)
Definition sole_listener (l : Listener) (s : Subscription.t) : Prop :=
  filter (λ cl : channel * Listener, cl.1 = OnEvent) (Subscription.listeners s)
  = [(OnEvent, l)].

(** The kind-42 handler given a list of events, in order of arrival. *)
Definition handle_messages (env : Projections.Env) (es : list Event.t)
    (st : Projections.State) : Projections.State :=
  foldl (λ st e, Projections.handler42 env e st) st es.

(** Two channel cells that differ at most in the order of their relays and
    of their messages, and in which copy of a message they hold. *)
Definition cell_equiv (c1 c2 : Channel.t) : Prop :=
  Channel.id c1 = Channel.id c2
  ∧ Channel.type c1 = Channel.type c2
  ∧ Channel.meta c1 = Channel.meta c2
  ∧ Channel.last_sent c1 = Channel.last_sent c2
  ∧ Channel.last_received c1 = Channel.last_received c2
  ∧ Channel.last_checked c1 = Channel.last_checked c2
  ∧ Channel.nip28 c1 = Channel.nip28 c2
  ∧ Channel.updated_at c1 = Channel.updated_at c2
  ∧ (list_to_set (default [] (Channel.relays c1)) : gset string)
    = list_to_set (default [] (Channel.relays c2))
  ∧ (list_to_set (Event.id <$> default [] (Channel.messages c1)) : gset string)
    = list_to_set (Event.id <$> default [] (Channel.messages c2)).

Definition store_equiv (st1 st2 : Projections.State) : Prop :=
  Projections.keys st1 = Projections.keys st2
  ∧ ∀ k, option_Forall2 cell_equiv
           (Projections.channels st1 !! k) (Projections.channels st2 !! k).

(* ===================================================================== *)
(** ** Facts about traces                                                 *)
(* ===================================================================== *)

Section Traces.

Lemma omap_fmap_none {A B C} (f : B → option C) (g : A → B) (l : list A) :
  (∀ x, f (g x) = None) → omap f (g <$> l) = [].
Proof.
  intros Hnone. induction l as [|x l IH]; simpl; [done|].
  by rewrite Hnone.
Qed.

Lemma filter_fmap_none {A B} (P : B → Prop) `{!∀ x, Decision (P x)}
    (g : A → B) (l : list A) :
  (∀ x, ¬ P (g x)) → filter P (g <$> l) = [].
Proof.
  intros Hnone. induction l as [|x l IH]; simpl; [done|].
  rewrite filter_cons_False; [done | apply Hnone].
Qed.

Lemma unsubscribes_app (a b : list call) :
  unsubscribes (a ++ b) = (unsubscribes a + unsubscribes b)%nat.
Proof. unfold unsubscribes. by rewrite filter_app, length_app. Qed.

Lemma cleanups_app (a b : list call) :
  cleanups (a ++ b) = (cleanups a + cleanups b)%nat.
Proof. unfold cleanups. by rewrite filter_app, length_app. Qed.

Lemma resolved_app (a b : list call) : resolved (a ++ b) = resolved a ++ resolved b.
Proof. apply omap_app. Qed.

Lemma projected_app (a b : list call) : projected (a ++ b) = projected a ++ projected b.
Proof. apply omap_app. Qed.

Lemma heard_app (a b : list call) : heard (a ++ b) = heard a ++ heard b.
Proof. apply omap_app. Qed.

Lemma emitted_app (a b : list call) : emitted (a ++ b) = emitted a ++ emitted b.
Proof. apply omap_app. Qed.

Lemma verified_app (a b : list call) : verified (a ++ b) = verified a ++ verified b.
Proof. apply omap_app. Qed.

Lemma matched_app (a b : list call) : matched (a ++ b) = matched a ++ matched b.
Proof. apply omap_app. Qed.

Lemma occurrences_app ident (a b : list Event.t) :
  occurrences ident (a ++ b) = (occurrences ident a + occurrences ident b)%nat.
Proof. unfold occurrences. by rewrite filter_app, length_app. Qed.

(** [emit] calls listeners and nothing else. *)
Lemma unsubscribes_emit s c p : unsubscribes (Subscription.emit s c p) = 0%nat.
Proof.
  unfold unsubscribes, Subscription.emit.
  rewrite filter_cons_False by done.
  by rewrite filter_fmap_none.
Qed.

Lemma cleanups_emit s c p : cleanups (Subscription.emit s c p) = 0%nat.
Proof.
  unfold cleanups, Subscription.emit.
  rewrite filter_cons_False by done.
  by rewrite filter_fmap_none.
Qed.

Lemma resolved_emit s c p : resolved (Subscription.emit s c p) = [].
Proof. unfold resolved, Subscription.emit. simpl. by apply omap_fmap_none. Qed.

Lemma projected_emit s c p : projected (Subscription.emit s c p) = [].
Proof. unfold projected, Subscription.emit. simpl. by apply omap_fmap_none. Qed.

Lemma verified_emit s c p : verified (Subscription.emit s c p) = [].
Proof. unfold verified, Subscription.emit. simpl. by apply omap_fmap_none. Qed.

Lemma matched_emit s c p : matched (Subscription.emit s c p) = [].
Proof. unfold matched, Subscription.emit. simpl. by apply omap_fmap_none. Qed.

(** Without listeners, [emit] reaches nobody. *)
Lemma heard_emit_no_listener s c p :
  Subscription.listeners s = [] → heard (Subscription.emit s c p) = [].
Proof. unfold heard, Subscription.emit. by intros ->. Qed.

Lemma emitted_emit_other s c p :
  (∀ e, p ≠ EventP e) → emitted (Subscription.emit s c p) = [].
Proof.
  intros Hp. unfold emitted, Subscription.emit. simpl.
  rewrite omap_fmap_none by done.
  destruct p; try done. by destruct (Hp event).
Qed.

Lemma emitted_emit_event s c e : emitted (Subscription.emit s c (EventP e)) = [e].
Proof.
  unfold emitted, Subscription.emit. simpl. by rewrite omap_fmap_none.
Qed.

Lemma stream_of_app l (a b : list call) :
  stream_of l (a ++ b) = stream_of l a ++ stream_of l b.
Proof. apply omap_app. Qed.

Lemma stream_of_emit_event l s e :
  sole_listener l s → stream_of l (Subscription.emit s OnEvent (EventP e)) = [e].
Proof.
  unfold sole_listener, stream_of, Subscription.emit. intros ->. simpl.
  by rewrite decide_True.
Qed.

Lemma stream_of_emit_other l s c p :
  (∀ e, p ≠ EventP e) → stream_of l (Subscription.emit s c p) = [].
Proof.
  intros Hp. unfold stream_of, Subscription.emit. simpl.
  apply omap_fmap_none. intros x. destruct p; try done. by destruct (Hp event).
Qed.

End Traces.

(* ===================================================================== *)
(** ** The subscription life cycle                                        *)
(* ===================================================================== *)

Section Lifecycle.

Context (env : Env).

Import Subscription.

Lemma close_when_closed now s :
  truthy_num (closed s) = true → close now s = (s, []).
Proof. intros Hc. unfold close. by rewrite Hc. Qed.

Lemma close_when_open now s :
  truthy_num (closed s) = false →
  close now s =
    (with_listeners []
       (with_result (resolve (events s) (result s)) (with_closed (Some now) s)),
     [Resolve (events s); Unsubscribe; Cleanup] ++ emit s OnClose (CloseP (events s))).
Proof. intros Hc. unfold close. by rewrite Hc. Qed.

(** [onEvent] writes [seen] and nothing else. *)
Lemma onEvent_frame url e s :
  with_seen (seen s) (onEvent env url e s).1 = s.
Proof.
  unfold onEvent. destruct s. simpl.
  repeat case_match; simpl; done.
Qed.

Lemma onEvent_closed url e s : closed (onEvent env url e s).1 = closed s.
Proof. by rewrite <- (onEvent_frame url e s) at 2. Qed.

Lemma onEvent_events url e s : events (onEvent env url e s).1 = events s.
Proof. by rewrite <- (onEvent_frame url e s) at 2. Qed.

Lemma onEvent_result url e s : result (onEvent env url e s).1 = result s.
Proof. by rewrite <- (onEvent_frame url e s) at 2. Qed.

Lemma onEvent_listeners url e s : listeners (onEvent env url e s).1 = listeners s.
Proof. by rewrite <- (onEvent_frame url e s) at 2. Qed.

Lemma onEvent_opts url e s : opts (onEvent env url e s).1 = opts s.
Proof. by rewrite <- (onEvent_frame url e s) at 2. Qed.

(** [onEvent] never touches the transport or the deferred. *)
Lemma onEvent_quiet url e s :
  unsubscribes (onEvent env url e s).2 = 0%nat
  ∧ cleanups (onEvent env url e s).2 = 0%nat
  ∧ resolved (onEvent env url e s).2 = [].
Proof.
  unfold onEvent.
  repeat case_match; try done; unfold snd.
  all: rewrite ?unsubscribes_app, ?cleanups_app, ?resolved_app,
         ?unsubscribes_emit, ?cleanups_emit, ?resolved_emit.
  all: done.
Qed.

(** No method ever appends to [events]. *)
Lemma step_events i s : events (step env i s).1 = events s.
Proof.
  destruct i as [url e|now url|now|now|c l]; simpl.
  - apply onEvent_events.
  - unfold onEose, close. repeat case_match; simplify_eq; done.
  - unfold close. case_match; done.
  - unfold close. case_match; done.
  - done.
Qed.

Lemma run_events ins s : events (run env ins s).1 = events s.
Proof.
  revert s. induction ins as [|i ins IH]; intros s; simpl; [done|].
  destruct (step env i s) as [s1 tr1] eqn:Hstep.
  destruct (run env ins s1) as [s2 tr2] eqn:Hrun. simpl.
  change s2 with (s2, tr2).1. rewrite <- Hrun, IH.
  change s1 with (s1, tr1).1. rewrite <- Hstep. apply step_events.
Qed.

(** The deferred holds nothing but [events]. *)
Lemma step_result i s :
  result (step env i s).1 = result s
  ∨ result (step env i s).1 = Some (events s).
Proof.
  destruct i as [url e|now url|now|now|c l]; simpl.
  - left. apply onEvent_result.
  - unfold onEose, close. repeat case_match; simplify_eq; simpl; auto.
    all: unfold resolve; case_match; auto.
  - unfold close. repeat case_match; simpl; auto.
    unfold resolve; case_match; auto.
  - unfold close. repeat case_match; simpl; auto.
    unfold resolve; case_match; auto.
  - auto.
Qed.

Lemma run_result ins s :
  result (run env ins s).1 = result s
  ∨ result (run env ins s).1 = Some (events s).
Proof.
  revert s. induction ins as [|i ins IH]; intros s; simpl; [auto|].
  destruct (step env i s) as [s1 tr1] eqn:Hstep.
  destruct (run env ins s1) as [s2 tr2] eqn:Hrun. simpl.
  pose proof (IH s1) as IH1. rewrite Hrun in IH1. simpl in IH1.
  pose proof (step_result i s) as Hs. pose proof (step_events i s) as He.
  rewrite Hstep in Hs, He. simpl in Hs, He.
  rewrite He in IH1. destruct IH1 as [->| ->]; auto.
Qed.

(** No method writes [opts]. *)
Lemma step_opts i s : opts (step env i s).1 = opts s.
Proof.
  destruct i as [url e|now url|now|now|c l]; simpl.
  - apply onEvent_opts.
  - unfold onEose, close. repeat case_match; simplify_eq; done.
  - unfold close. case_match; done.
  - unfold close. case_match; done.
  - done.
Qed.

Lemma run_opts ins s : opts (run env ins s).1 = opts s.
Proof.
  revert s. induction ins as [|i ins IH]; intros s; simpl; [done|].
  pose proof (step_opts i s) as H1.
  destruct (step env i s) as [s1 tr1]. unfold fst in H1.
  pose proof (IH s1) as H2.
  destruct (run env ins s1) as [s2 tr2]. simpl in *. congruence.
Qed.

(** A subscription that [subscribe] returns has no event, no result and
    is open. *)
Lemma subscribe_fresh now o tr sub :
  subscribe env now o = (tr, Returned sub) →
  events sub = [] ∧ result sub = None ∧ closed sub = None
  ∧ seen sub = ∅ ∧ eose sub = ∅ ∧ opts sub = o.
Proof.
  unfold subscribe, new. destruct (start env o) as [tr0 [us|]]; [|done].
  intros [= <- <-].
  destruct (Opts.onEvent o), (Opts.onEose o), (Opts.onClose o); done.
Qed.

(** Whatever happens to a subscription, its completion value is pending
    or the empty list. *)
Lemma completion_value_never_holds_an_event now o tr sub ins :
  subscribe env now o = (tr, Returned sub) →
  result (run env ins sub).1 = None ∨ result (run env ins sub).1 = Some [].
Proof.
  intros (He & Hr & _)%subscribe_fresh.
  destruct (run_result ins sub) as [->| ->]; [left|right]; congruence.
Qed.

End Lifecycle.

(* ===================================================================== *)
(** ** Closing                                                            *)
(* ===================================================================== *)

Section Closing.

Context (env : Env).

Import Subscription.

(** What one call of [close] on an open subscription does to the transport. *)
Lemma close_open_calls now s :
  truthy_num (closed s) = false →
  closed (close now s).1 = Some now
  ∧ unsubscribes (close now s).2 = 1%nat
  ∧ cleanups (close now s).2 = 1%nat
  ∧ resolved (close now s).2 = [events s]
  ∧ listeners (close now s).1 = [].
Proof.
  intros Hc. rewrite close_when_open by done. unfold fst, snd.
  rewrite unsubscribes_app, cleanups_app, resolved_app.
  rewrite unsubscribes_emit, cleanups_emit, resolved_emit. done.
Qed.

Lemma onEose_closed now url s :
  truthy_num (closed s) = true →
  closed (onEose now url s).1 = closed s
  ∧ unsubscribes (onEose now url s).2 = 0%nat
  ∧ cleanups (onEose now url s).2 = 0%nat.
Proof.
  intros Hc. unfold onEose.
  case_match.
  - rewrite close_when_closed by done. unfold fst, snd.
    rewrite app_nil_r, unsubscribes_emit, cleanups_emit. done.
  - unfold fst, snd. rewrite unsubscribes_emit, cleanups_emit. done.
Qed.

Lemma onEose_open now url s :
  truthy_num (closed s) = false →
  (closed (onEose now url s).1 = closed s
   ∧ unsubscribes (onEose now url s).2 = 0%nat
   ∧ cleanups (onEose now url s).2 = 0%nat)
  ∨ (closed (onEose now url s).1 = Some now
     ∧ unsubscribes (onEose now url s).2 = 1%nat
     ∧ cleanups (onEose now url s).2 = 1%nat).
Proof.
  intros Hc. unfold onEose.
  case_match.
  - right.
    pose proof (close_open_calls now (with_eose ({[url]} ∪ eose s) s) Hc)
      as (H1 & H2 & H3 & _).
    destruct (close now (with_eose ({[url]} ∪ eose s) s)) as [s' tr'].
    unfold fst, snd in *.
    rewrite unsubscribes_app, cleanups_app, unsubscribes_emit, cleanups_emit.
    done.
  - left. unfold fst, snd. rewrite unsubscribes_emit, cleanups_emit. done.
Qed.

(** Once closed, nothing releases the transport again. *)
Lemma step_closed i s :
  truthy_num (closed s) = true →
  closed (step env i s).1 = closed s
  ∧ unsubscribes (step env i s).2 = 0%nat
  ∧ cleanups (step env i s).2 = 0%nat.
Proof.
  intros Hc. destruct i as [url e|now url|now|now|c l]; simpl.
  - rewrite onEvent_closed. by destruct (onEvent_quiet env url e s) as (-> & -> & _).
  - by apply onEose_closed.
  - by rewrite close_when_closed.
  - by rewrite close_when_closed.
  - done.
Qed.

Lemma run_closed ins s :
  truthy_num (closed s) = true →
  closed (run env ins s).1 = closed s
  ∧ unsubscribes (run env ins s).2 = 0%nat
  ∧ cleanups (run env ins s).2 = 0%nat.
Proof.
  revert s. induction ins as [|i ins IH]; intros s Hc; [done|].
  simpl. pose proof (step_closed i s Hc) as (H1 & H2 & H3).
  destruct (step env i s) as [s1 tr1]. unfold fst, snd in *.
  assert (truthy_num (closed s1) = true) as Hc1 by by rewrite H1.
  pose proof (IH s1 Hc1) as (I1 & I2 & I3).
  destruct (run env ins s1) as [s2 tr2]. unfold fst, snd in *.
  rewrite unsubscribes_app, cleanups_app. split; [congruence | lia].
Qed.

(** One step of an open subscription either leaves it open and the
    transport alone, or closes it and releases the transport once. *)
Lemma step_open i s :
  truthy_num (closed s) = false →
  nonzero_reading i →
  (truthy_num (closed (step env i s).1) = false
   ∧ unsubscribes (step env i s).2 = 0%nat
   ∧ cleanups (step env i s).2 = 0%nat
   ∧ match i with Timer _ | Close _ => False | _ => True end)
  ∨ (truthy_num (closed (step env i s).1) = true
     ∧ unsubscribes (step env i s).2 = 1%nat
     ∧ cleanups (step env i s).2 = 1%nat).
Proof.
  intros Hc Hnz.
  assert (∀ now, reading i = Some now → truthy_num (Some now) = true) as Ht.
  { intros now Hr. simpl. apply negb_true_iff, Z.eqb_neq. by apply Hnz. }
  destruct i as [url e|now url|now|now|c l]; simpl.
  - left. rewrite onEvent_closed.
    by destruct (onEvent_quiet env url e s) as (-> & -> & _).
  - destruct (onEose_open now url s Hc) as [(H1 & H2 & H3)|(H1 & H2 & H3)].
    + left. by rewrite H1.
    + right. rewrite H1. split; [by apply Ht | done].
  - right. destruct (close_open_calls now s Hc) as (H1 & H2 & H3 & _).
    rewrite H1. split; [by apply Ht | done].
  - right. destruct (close_open_calls now s Hc) as (H1 & H2 & H3 & _).
    rewrite H1. split; [by apply Ht | done].
  - by left.
Qed.

Lemma run_open ins s :
  truthy_num (closed s) = false →
  Forall nonzero_reading ins →
  unsubscribes (run env ins s).2 = (if truthy_num (closed (run env ins s).1) then 1 else 0)%nat
  ∧ cleanups (run env ins s).2 = (if truthy_num (closed (run env ins s).1) then 1 else 0)%nat
  ∧ (closes ins = true → truthy_num (closed (run env ins s).1) = true).
Proof.
  revert s. induction ins as [|i ins IH]; intros s Hc Hnz.
  { simpl. by rewrite Hc. }
  apply Forall_cons in Hnz as [Hi Hnz]. simpl.
  destruct (step_open i s Hc Hi) as [(H1 & H2 & H3 & H4)|(H1 & H2 & H3)].
  - destruct (step env i s) as [s1 tr1]. unfold fst, snd in *.
    pose proof (IH s1 H1 Hnz) as (I1 & I2 & I3).
    destruct (run env ins s1) as [s2 tr2]. unfold fst, snd in *.
    rewrite unsubscribes_app, cleanups_app, H2, H3.
    split_and!; [done | done |].
    intros Hcl. apply I3. by destruct i.
  - destruct (step env i s) as [s1 tr1]. unfold fst, snd in *.
    pose proof (run_closed ins s1 H1) as (I1 & I2 & I3).
    destruct (run env ins s1) as [s2 tr2]. unfold fst, snd in *.
    rewrite unsubscribes_app, cleanups_app, H2, H3, I2, I3, I1, H1.
    done.
Qed.

End Closing.

Section ClosingClaims.

Context (env : Env).

Import Subscription.

(** C6.  [close] is idempotent.  On a subscription whose [closed] field is
    set, [close] returns the object as it was and makes no call: the
    closed-at timestamp, the completion value and the transport are left
    alone.  Consequently, for an open subscription and any sequence of
    deliveries, EOSE signals, timer firings, listener registrations and
    [close] calls that contains at least one [close], the transport is
    unsubscribed exactly once and cleaned up exactly once, and a further
    [close] on the final object is again a no-op.  Every reading of
    [Date.now()] is taken to be non-zero. *)
Theorem close_is_idempotent (s : t) (ins : list input) :
  truthy_num (closed s) = false →
  Forall nonzero_reading ins →
  closes ins = true →
  unsubscribes (run env ins s).2 = 1%nat
  ∧ cleanups (run env ins s).2 = 1%nat
  ∧ (∀ now, close now (run env ins s).1 = ((run env ins s).1, []))
  ∧ (∀ now c, truthy_num (closed c) = true → close now c = (c, [])).
Proof.
  intros Hopen Hnz Hcl.
  destruct (run_open env ins s Hopen Hnz) as (Hu & Hc & Hfin).
  specialize (Hfin Hcl). rewrite Hfin in Hu, Hc.
  split_and!; [done | done | |].
  - intros now. by apply close_when_closed.
  - intros now c Hcc. by apply close_when_closed.
Qed.

End ClosingClaims.

(** Three calls of [close] on the subscription of section 8, after its one
    delivery: one unsubscribe, one cleanup. *)
Lemma close_is_idempotent_witness :
  ∃ sub tr,
    Subscription.subscribe Fixture.env 1000 Fixture.opts = (tr, Returned sub)
    ∧ unsubscribes
        (Subscription.run Fixture.env
           [Subscription.Deliver Fixture.R1 Fixture.e1; Subscription.Close 1100;
            Subscription.Close 1200; Subscription.Timer 6000] sub).2 = 1%nat.
Proof.
  eexists _, _. split; [reflexivity|].
  refine (proj1 (close_is_idempotent Fixture.env _ _ _ _ _)).
  - reflexivity.
  - repeat constructor; intros now [= <-]; lia.
  - reflexivity.
Defined.

(** C1.  The scenario of section 8 run on the code: R1 delivers [e1], R2
    delivers it again, both relays signal EOSE.  The subscription closes at
    the second EOSE, [e1] is attributed to R1 and R2, listener 7 has
    received [e1] once on the live stream, and the completion value the
    deferred was resolved with is the empty list, not [[e1]]: [close]
    resolves with [this.events], to which no method appends. *)
Theorem scenario_completion_value_is_empty :
  option_map
    (λ x : Subscription.t * list call,
       (Subscription.closed x.1, Subscription.seen_on x.1 Fixture.e1,
        stream_of 7%nat x.2, resolved x.2, Subscription.result x.1))
    (Fixture.outcome_of Fixture.opts Fixture.inputs)
  = Some (Some 1300, [Fixture.R1; Fixture.R2], [Fixture.e1], [[]], Some []).
Proof. vm_compute. reflexivity. Qed.

(** The rest of the scenario of section 8: the store for channel-X holds the
    one message [e1], received and not sent. *)
Example scenario_channel_store :
  option_map
    (λ x : Subscription.t * list call,
       (λ c : Channel.t, (Channel.messages c, Channel.last_received c, Channel.last_sent c))
         <$> Fixture.channels_after x.2 !! "channel-X")
    (Fixture.outcome_of Fixture.opts Fixture.inputs)
  = Some (Some (Some [Fixture.e1], Some 100, None)).
Proof. vm_compute. reflexivity. Qed.

(* ===================================================================== *)
(** ** Deliveries                                                         *)
(* ===================================================================== *)

Section Deliveries.

Context (env : Env).

Import Subscription.

(** A delivery of an id already in [seen]. *)
Lemma onEvent_duplicate url e s l :
  seen s !! Event.id e = Some l →
  onEvent env url e s =
    (if negb (bool_decide (url ∈ l)) && isShareableRelay env url
     then with_seen (<[Event.id e := l ++ [url]]> (seen s)) s
     else s, []).
Proof. intros Hl. unfold onEvent. rewrite Hl. by case_match. Qed.

(** A delivery of a new id: what is recorded, and the calls made, by the
    outcome of the two checks. *)
Lemma onEvent_first url e s :
  seen s !! Event.id e = None →
  let e' := Event.default_content e in
  let s' := with_seen (<[Event.id e := if isShareableRelay env url then [url] else []]>
                         (seen s)) s in
  let fs := Opts.filters (opts s) in
  onEvent env url e s =
    (s',
     if negb (truthy_bool (tryFunc (verifySignature env e'))) then
       [VerifySignature e'; Warn "Signature verification failed" e']
     else if negb (matchFilters env fs e') then
       [VerifySignature e'; MatchFilters fs e'; Warn "Event failed to match filter" e']
     else
       [VerifySignature e'; MatchFilters fs e']
       ++ (if bool_decide (Opts.shouldProject (opts s) ≠ Some false)
           then [ProjectionsPush e'] else [])
       ++ emit s OnEvent (EventP e')).
Proof.
  intros Hl. unfold onEvent. rewrite Hl. simpl.
  repeat case_match; done.
Qed.

(** A sole listener of the live stream is handed what is emitted. *)
Lemma onEvent_stream l url e s :
  sole_listener l s →
  stream_of l (onEvent env url e s).2 = emitted (onEvent env url e s).2.
Proof.
  intros Hl. destruct (seen s !! Event.id e) as [l0|] eqn:Hs.
  - by rewrite (onEvent_duplicate _ _ _ _ Hs).
  - rewrite (onEvent_first _ _ _ Hs). unfold snd.
    repeat case_match; try done.
    all: rewrite !stream_of_app, !emitted_app, emitted_emit_event.
    all: rewrite stream_of_emit_event by done; done.
Qed.

(** The checks of one delivery run at most once, on the delivered event. *)
Lemma onEvent_pipeline url e s :
  let tr := (onEvent env url e s).2 in
  let e' := Event.default_content e in
  (seen s !! Event.id e = None → verified tr = [e'])
  ∧ (is_Some (seen s !! Event.id e) → tr = [])
  ∧ (matched tr = [] ∨ matched tr = [e'])
  ∧ (projected tr = [] ∨ projected tr = [e'])
  ∧ (emitted tr = [] ∨ emitted tr = [e']).
Proof.
  simpl. destruct (seen s !! Event.id e) as [l|] eqn:Hl.
  - rewrite (onEvent_duplicate _ _ _ _ Hl). simpl. split_and!; auto. done.
  - rewrite (onEvent_first _ _ _ Hl). unfold snd.
    split; [|split; [by intros [? ?]|]].
    + intros _. repeat case_match; try done.
      all: rewrite !verified_app, verified_emit; done.
    + repeat case_match.
      all: rewrite ?matched_app, ?projected_app, ?emitted_app,
             ?matched_emit, ?projected_emit, ?emitted_emit_event.
      all: simpl; auto.
Qed.

Lemma onEvent_seen_other url e s ident :
  Event.id e ≠ ident → seen (onEvent env url e s).1 !! ident = seen s !! ident.
Proof.
  intros Hne. destruct (seen s !! Event.id e) as [l|] eqn:Hl.
  - rewrite (onEvent_duplicate _ _ _ _ Hl). case_match; simpl; [|done].
    by rewrite lookup_insert_ne.
  - rewrite (onEvent_first _ _ _ Hl). simpl. by rewrite lookup_insert_ne.
Qed.

(** [seen] only grows. *)
Lemma onEvent_seen_same url e s :
  is_Some (seen (onEvent env url e s).1 !! Event.id e).
Proof.
  destruct (seen s !! Event.id e) as [l|] eqn:Hl.
  - rewrite (onEvent_duplicate _ _ _ _ Hl). case_match; simpl.
    + rewrite lookup_insert_eq. eauto.
    + rewrite Hl. eauto.
  - rewrite (onEvent_first _ _ _ Hl). simpl. rewrite lookup_insert_eq. eauto.
Qed.

(** The other methods leave [seen] alone and run none of the checks. *)
Lemma step_not_delivery i s :
  (∀ url e, i ≠ Deliver url e) →
  seen (step env i s).1 = seen s
  ∧ verified (step env i s).2 = []
  ∧ matched (step env i s).2 = []
  ∧ projected (step env i s).2 = []
  ∧ emitted (step env i s).2 = [].
Proof.
  intros Hi.
  assert (∀ now s0, seen (close now s0).1 = seen s0
                    ∧ verified (close now s0).2 = []
                    ∧ matched (close now s0).2 = []
                    ∧ projected (close now s0).2 = []
                    ∧ emitted (close now s0).2 = []) as Hclose.
  { intros now s0. unfold close. case_match; [|done]. unfold fst, snd.
    rewrite verified_app, matched_app, projected_app, emitted_app.
    rewrite verified_emit, matched_emit, projected_emit, emitted_emit_other by done.
    done. }
  destruct i as [url e|now url|now|now|c l]; simpl.
  - by destruct (Hi url e).
  - unfold onEose. case_match.
    + pose proof (Hclose now (with_eose ({[url]} ∪ eose s) s)) as (H1 & H2 & H3 & H4 & H5).
      destruct (close now (with_eose ({[url]} ∪ eose s) s)) as [s' tr'].
      unfold fst, snd in *.
      rewrite verified_app, matched_app, projected_app, emitted_app.
      rewrite verified_emit, matched_emit, projected_emit, emitted_emit_other by done.
      rewrite H1, H2, H3, H4, H5. done.
    + unfold fst, snd.
      rewrite verified_emit, matched_emit, projected_emit, emitted_emit_other by done.
      done.
  - apply Hclose.
  - apply Hclose.
  - done.
Qed.

Lemma occurrences_singleton ident (e : Event.t) :
  occurrences ident [e] = if decide (Event.id e = ident) then 1%nat else 0%nat.
Proof.
  unfold occurrences. case_decide.
  - by rewrite filter_cons_True.
  - by rewrite filter_cons_False.
Qed.

(** What one step contributes to the counts of an id. *)
Lemma step_counts i s ident :
  let tr := (step env i s).2 in
  (is_Some (seen s !! ident) → is_Some (seen (step env i s).1 !! ident))
  ∧ (is_Some (seen s !! ident) →
     occurrences ident (verified tr) = 0%nat
     ∧ occurrences ident (matched tr) = 0%nat
     ∧ occurrences ident (projected tr) = 0%nat
     ∧ occurrences ident (emitted tr) = 0%nat)
  ∧ (seen s !! ident = None →
     (delivers ident [i] = true
      ∧ is_Some (seen (step env i s).1 !! ident)
      ∧ occurrences ident (verified tr) = 1%nat
      ∧ (occurrences ident (matched tr) ≤ 1)%nat
      ∧ (occurrences ident (projected tr) ≤ 1)%nat
      ∧ (occurrences ident (emitted tr) ≤ 1)%nat)
     ∨ (delivers ident [i] = false
        ∧ seen (step env i s).1 !! ident = None
        ∧ occurrences ident (verified tr) = 0%nat
        ∧ occurrences ident (matched tr) = 0%nat
        ∧ occurrences ident (projected tr) = 0%nat
        ∧ occurrences ident (emitted tr) = 0%nat)).
Proof.
  simpl. destruct i as [url e|now url|now|now|c l].
  2-5: match goal with |- context [step env ?i ?s0] =>
         destruct (step_not_delivery i s0) as (-> & -> & -> & -> & ->); [done|]
       end; split_and!; [done | done |]; intros Hn; right; done.
  simpl step.
  pose proof (onEvent_pipeline url e s) as (Hv & Hdup & Hm & Hp & He).
  destruct (decide (Event.id e = ident)) as [<-|Hne].
  - split; [intros _; apply onEvent_seen_same|]. split.
    + intros Hs. rewrite (Hdup Hs). done.
    + intros Hn. left. split.
      { simpl. by rewrite bool_decide_true. }
      split; [apply onEvent_seen_same|].
      rewrite (Hv Hn).
      assert (Event.id (Event.default_content e) = Event.id e) as Hid by done.
      split; [by rewrite occurrences_singleton, decide_True|].
      split_and!.
      * destruct Hm as [-> | ->]; [cbn; lia|]. by rewrite occurrences_singleton, decide_True.
      * destruct Hp as [-> | ->]; [cbn; lia|]. by rewrite occurrences_singleton, decide_True.
      * destruct He as [-> | ->]; [cbn; lia|]. by rewrite occurrences_singleton, decide_True.
  - assert (Event.id (Event.default_content e) ≠ ident) as Hid by done.
    assert (occurrences ident (verified (onEvent env url e s).2) = 0%nat
            ∧ occurrences ident (matched (onEvent env url e s).2) = 0%nat
            ∧ occurrences ident (projected (onEvent env url e s).2) = 0%nat
            ∧ occurrences ident (emitted (onEvent env url e s).2) = 0%nat) as Hzero.
    { split_and!.
      - destruct (seen s !! Event.id e) as [l|] eqn:Hl.
        + rewrite Hdup; [done | eauto].
        + rewrite Hv by done. by rewrite occurrences_singleton, decide_False.
      - destruct Hm as [-> | ->]; [done|]. by rewrite occurrences_singleton, decide_False.
      - destruct Hp as [-> | ->]; [done|]. by rewrite occurrences_singleton, decide_False.
      - destruct He as [-> | ->]; [done|]. by rewrite occurrences_singleton, decide_False. }
    rewrite onEvent_seen_other by done.
    split; [done|]. split; [done|].
    intros Hn. right. split; [|done].
    simpl. by rewrite bool_decide_false.
Qed.

End Deliveries.

Section DeliveryRuns.

Context (env : Env).

Import Subscription.

Lemma delivers_cons ident i ins :
  delivers ident (i :: ins) = delivers ident [i] || delivers ident ins.
Proof. unfold delivers. simpl. by rewrite orb_false_r. Qed.

(** Once an id is in [seen], no later input runs a check on it. *)
Lemma run_seen ins s ident :
  is_Some (seen s !! ident) →
  let tr := (run env ins s).2 in
  occurrences ident (verified tr) = 0%nat
  ∧ occurrences ident (matched tr) = 0%nat
  ∧ occurrences ident (projected tr) = 0%nat
  ∧ occurrences ident (emitted tr) = 0%nat.
Proof.
  revert s. induction ins as [|i ins IH]; intros s Hs; [done|].
  simpl. pose proof (step_counts env i s ident) as (Hkeep & Hzero & _).
  specialize (Hkeep Hs). destruct (Hzero Hs) as (H1 & H2 & H3 & H4).
  destruct (step env i s) as [s1 tr1]. unfold fst, snd in *.
  destruct (IH s1 Hkeep) as (I1 & I2 & I3 & I4).
  destruct (run env ins s1) as [s2 tr2]. unfold fst, snd in *.
  rewrite verified_app, matched_app, projected_app, emitted_app.
  rewrite !occurrences_app. lia.
Qed.

Lemma with_seen_same s : with_seen (seen s) s = s.
Proof. by destruct s. Qed.

(** A run over two lists of inputs is the run over the first, then the run
    over the second on what the first left. *)
Lemma run_app ins1 ins2 s :
  run env (ins1 ++ ins2) s =
    ((run env ins2 (run env ins1 s).1).1,
     (run env ins1 s).2 ++ (run env ins2 (run env ins1 s).1).2).
Proof.
  revert s. induction ins1 as [|i ins1 IH]; intros s; simpl.
  - by destruct (run env ins2 s).
  - destruct (step env i s) as [s1 tr1]. rewrite IH.
    destruct (run env ins1 s1) as [s2 tr2]. simpl.
    by rewrite app_assoc.
Qed.

Lemma run_cons i ins s :
  run env (i :: ins) s =
    ((run env ins (step env i s).1).1,
     (step env i s).2 ++ (run env ins (step env i s).1).2).
Proof.
  simpl. destruct (step env i s) as [s1 tr1]. unfold fst, snd.
  by destruct (run env ins s1) as [s2 tr2].
Qed.

(** An id in [seen] stays in it. *)
Lemma run_keeps_seen ins s ident :
  is_Some (seen s !! ident) → is_Some (seen (run env ins s).1 !! ident).
Proof.
  revert s. induction ins as [|i ins IH]; intros s Hs; [done|].
  rewrite run_cons. cbn [fst]. apply IH.
  by apply (step_counts env i s ident).
Qed.

(** As long as an id is not delivered, it stays out of [seen] and nothing is
    done about it. *)
Lemma run_undelivered ins s ident :
  seen s !! ident = None →
  delivers ident ins = false →
  seen (run env ins s).1 !! ident = None ∧ silent_about ident (run env ins s).2.
Proof.
  revert s. induction ins as [|i ins IH]; intros s Hs Hd; [done|].
  rewrite delivers_cons in Hd. apply orb_false_iff in Hd as [Hi Hins].
  rewrite run_cons. cbn [fst snd].
  pose proof (step_counts env i s ident) as (_ & _ & Hnew).
  destruct (Hnew Hs) as [(Hd & _)|(_ & Hkeep & H1 & H2 & H3 & H4)]; [congruence|].
  destruct (IH _ Hkeep Hins) as (Hfin & I1 & I2 & I3 & I4).
  split; [done|]. unfold silent_about.
  rewrite verified_app, matched_app, projected_app, emitted_app, !occurrences_app.
  lia.
Qed.

(** The stages of the first delivery of an id, by the outcome of its checks. *)
Lemma onEvent_first_stages url e s :
  seen s !! Event.id e = None →
  let e' := Event.default_content e in
  let tr := (onEvent env url e s).2 in
  let sig_ok := truthy_bool (tryFunc (verifySignature env e')) in
  let passes := sig_ok && matchFilters env (Opts.filters (opts s)) e' in
  verified tr = [e']
  ∧ matched tr = (if sig_ok then [e'] else [])
  ∧ projected tr =
      (if passes && bool_decide (Opts.shouldProject (opts s) ≠ Some false)
       then [e'] else [])
  ∧ emitted tr = (if passes then [e'] else []).
Proof.
  intros Hl. simpl. rewrite (onEvent_first env _ _ _ Hl). unfold snd.
  destruct (truthy_bool (tryFunc (verifySignature env (Event.default_content e))));
    cbv [negb andb]; [|done].
  destruct (matchFilters env (Opts.filters (opts s)) (Event.default_content e));
    cbv [negb]; [|done].
  rewrite !verified_app, !matched_app, !projected_app, !emitted_app.
  rewrite verified_emit, matched_emit, projected_emit, emitted_emit_event.
  destruct (bool_decide (Opts.shouldProject (opts s) ≠ Some false)); done.
Qed.

(** C2.  Let a subscription not have seen the id of [e], and let the
    transport deliver [e] from [url] after inputs [pre] that do not deliver
    that id, and before any inputs [post], in which that id may be
    delivered again any number of times by any relays.  Then the calls of
    the whole run are those of [pre], of that first delivery and of [post],
    in this order, and:
    - nothing in [pre] concerns the id;
    - the first delivery runs the pipeline on the event (its content
      defaulted): it verifies the signature; when the signature verifies it
      re-checks the filters; when the filters match too it emits the event
      on the live stream and, unless [shouldProject] is [false], pushes it
      to the Projection Registry, the stages a rejected event does not
      reach being skipped;
    - nothing in [post] concerns the id, so over the whole run each stage
      ran exactly once for the id if the first delivery ran it, and never
      otherwise; for an event that passes both checks with projection on,
      this is once each for verification, re-check, push and emission;
    - every later delivery of the id in [post] makes no call at all and
      changes the object only at the id's entry of [seen], where the
      delivering relay is appended when it is shareable and not yet
      listed. *)
Theorem duplicate_delivery_is_processed_once
    (s : t) (pre post : list input) (url : string) (e : Event.t) :
  seen s !! Event.id e = None →
  delivers (Event.id e) pre = false →
  let ident := Event.id e in
  let e' := Event.default_content e in
  let first := onEvent env url e (run env pre s).1 in
  let whole := (run env (pre ++ Deliver url e :: post) s).2 in
  let sig_ok := truthy_bool (tryFunc (verifySignature env e')) in
  let passes := sig_ok && matchFilters env (Opts.filters (opts s)) e' in
  let pushes := passes && bool_decide (Opts.shouldProject (opts s) ≠ Some false) in
  whole = (run env pre s).2 ++ first.2 ++ (run env post first.1).2
  ∧ silent_about ident (run env pre s).2
  ∧ (verified first.2 = [e']
     ∧ matched first.2 = (if sig_ok then [e'] else [])
     ∧ projected first.2 = (if pushes then [e'] else [])
     ∧ emitted first.2 = (if passes then [e'] else []))
  ∧ silent_about ident (run env post first.1).2
  ∧ (occurrences ident (verified whole) = 1%nat
     ∧ occurrences ident (matched whole) = (if sig_ok then 1 else 0)%nat
     ∧ occurrences ident (projected whole) = (if pushes then 1 else 0)%nat
     ∧ occurrences ident (emitted whole) = (if passes then 1 else 0)%nat)
  ∧ (∀ post1 post2 url2 e2,
       post = post1 ++ Deliver url2 e2 :: post2 →
       Event.id e2 = ident →
       let c := (run env post1 first.1).1 in
       ∃ l, seen c !! ident = Some l
            ∧ onEvent env url2 e2 c =
                (with_seen (<[ident :=
                                if negb (bool_decide (url2 ∈ l)) && isShareableRelay env url2
                                then l ++ [url2] else l]> (seen c)) c, [])).
Proof.
  intros Hs Hpre. cbv zeta.
  destruct (run_undelivered pre s (Event.id e) Hs Hpre) as (Hnew & Hquiet).
  pose proof (onEvent_first_stages url e (run env pre s).1 Hnew) as Hfirst.
  cbv zeta in Hfirst. rewrite run_opts in Hfirst.
  destruct Hfirst as (Hv & Hm & Hp & He).
  pose proof (onEvent_seen_same env url e (run env pre s).1) as Hseen.
  pose proof (run_seen post _ _ Hseen) as Hlater. cbv zeta in Hlater.
  assert ((run env (pre ++ Deliver url e :: post) s).2
          = (run env pre s).2 ++ (onEvent env url e (run env pre s).1).2
            ++ (run env post (onEvent env url e (run env pre s).1).1).2) as Hsplit.
  { by rewrite run_app, run_cons. }
  split; [done|]. split; [done|]. split; [done|]. split; [done|]. split.
  - rewrite Hsplit.
    rewrite !verified_app, !matched_app, !projected_app, !emitted_app, !occurrences_app.
    destruct Hquiet as (-> & -> & -> & ->). destruct Hlater as (-> & -> & -> & ->).
    rewrite Hv, Hm, Hp, He.
    assert (occurrences (Event.id e) [Event.default_content e] = 1%nat) as Hone.
    { by rewrite occurrences_singleton, decide_True. }
    split_and!; repeat case_match; rewrite ?Hone; done.
  - intros post1 post2 url2 e2 _ Hid.
    destruct (run_keeps_seen post1 _ _ Hseen) as [l Hl].
    exists l. split; [done|]. rewrite <- Hid in Hl |- *.
    rewrite (onEvent_duplicate env _ _ _ _ Hl).
    destruct (negb (bool_decide (url2 ∈ l)) && isShareableRelay env url2); [done|].
    by rewrite insert_id, with_seen_same.
Qed.

(** C3.  Let the transport deliver [event] from [url].  If the signature of
    the event (with its content defaulted, as [onEvent] checks it) does
    not verify, or the event does not match the subscription's filters,
    then the delivery pushes nothing to the Projection Registry, emits
    nothing on the live stream and calls no listener: the only calls it
    makes are the checks themselves and the logger. *)
Theorem rejected_event_is_dropped (s : t) (url : string) (event : Event.t) :
  truthy_bool (tryFunc (verifySignature env (Event.default_content event))) = false
  ∨ matchFilters env (Opts.filters (opts s)) (Event.default_content event) = false →
  projected (onEvent env url event s).2 = []
  ∧ emitted (onEvent env url event s).2 = []
  ∧ heard (onEvent env url event s).2 = []
  ∧ Forall check_or_log (onEvent env url event s).2.
Proof.
  intros Hbad. destruct (seen s !! Event.id event) as [l|] eqn:Hl.
  - by rewrite (onEvent_duplicate env _ _ _ _ Hl).
  - rewrite (onEvent_first env _ _ _ Hl). unfold snd.
    destruct (truthy_bool (tryFunc (verifySignature env (Event.default_content event))))
      eqn:Hv; simpl negb; cbv iota.
    + destruct Hbad as [?| ->]; [done|]. simpl.
      split_and!; try done. repeat constructor.
    + simpl. split_and!; try done. repeat constructor.
Qed.

End DeliveryRuns.

(** The id [A] of section 8, delivered by R1 and again by R2, then the two
    EOSE signals: each stage of the pipeline ran once. *)
Lemma duplicate_delivery_is_processed_once_witness :
  ∃ sub tr,
    Subscription.subscribe Fixture.env 1000 Fixture.opts = (tr, Returned sub)
    ∧ let whole := (Subscription.run Fixture.env Fixture.inputs sub).2 in
      occurrences "A" (verified whole) = 1%nat
      ∧ occurrences "A" (matched whole) = 1%nat
      ∧ occurrences "A" (projected whole) = 1%nat
      ∧ occurrences "A" (emitted whole) = 1%nat.
Proof.
  eexists _, _. split; [reflexivity|].
  pose proof (duplicate_delivery_is_processed_once Fixture.env Fixture.fresh []
                [Subscription.Deliver Fixture.R2 Fixture.e1;
                 Subscription.Eose 1200 Fixture.R1; Subscription.Eose 1300 Fixture.R2]
                Fixture.R1 Fixture.e1 eq_refl eq_refl) as H.
  cbv zeta in H. destruct H as (_ & _ & _ & _ & Hcount & _).
  exact Hcount.
Defined.

(** [e1] with a forged signature, delivered by R1 to the subscription of
    section 8. *)
Lemma rejected_event_is_dropped_witness :
  ∃ sub tr,
    Subscription.subscribe Fixture.env 1000 Fixture.opts = (tr, Returned sub)
    ∧ projected (Subscription.onEvent Fixture.env Fixture.R1 Fixture.e1_forged sub).2 = [].
Proof.
  eexists _, _. split; [reflexivity|].
  refine (proj1 (rejected_event_is_dropped Fixture.env _ Fixture.R1 Fixture.e1_forged _)).
  left. reflexivity.
Defined.

(* ===================================================================== *)
(** ** Deliveries after close                                             *)
(* ===================================================================== *)

Section AfterClose.

Context (env : Env).

Import Subscription.

Lemma heard_onEvent_no_listener url e s :
  listeners s = [] → heard (onEvent env url e s).2 = [].
Proof.
  intros Hl. destruct (seen s !! Event.id e) as [l|] eqn:Hs.
  - by rewrite (onEvent_duplicate env _ _ _ _ Hs).
  - rewrite (onEvent_first env _ _ _ Hs). unfold snd.
    repeat case_match; try done.
    all: rewrite !heard_app, heard_emit_no_listener by done; done.
Qed.

(** The step that closes a subscription leaves it without listeners. *)
Lemma step_closing_releases i s :
  truthy_num (closed s) = false →
  truthy_num (closed (step env i s).1) = true →
  listeners (step env i s).1 = [].
Proof.
  intros Hopen Hclosed. destruct i as [url e|now url|now|now|c l]; cbn [step] in *.
  - rewrite onEvent_closed in Hclosed. congruence.
  - destruct (onEose_open now url s Hopen) as [(H1 & _)|_].
    { rewrite H1 in Hclosed. congruence. }
    unfold onEose in *. case_match.
    + destruct (close_open_calls now (with_eose ({[url]} ∪ eose s) s) Hopen)
        as (_ & _ & _ & _ & Hl).
      by destruct (close now _) as [s' tr'].
    + simpl in Hclosed. congruence.
  - by destruct (close_open_calls now s Hopen) as (_ & _ & _ & _ & Hl).
  - by destruct (close_open_calls now s Hopen) as (_ & _ & _ & _ & Hl).
  - simpl in Hclosed. congruence.
Qed.

(** A closed subscription without listeners, to which nobody registers:
    whatever else happens to it, it stays as it is but for [seen] and
    [eose], and no listener hears of an event. *)
Lemma step_closed_unheard i s :
  truthy_num (closed s) = true →
  listeners s = [] →
  registers [i] = false →
  closed (step env i s).1 = closed s
  ∧ listeners (step env i s).1 = []
  ∧ heard (step env i s).2 = [].
Proof.
  intros Hc Hl Hreg. destruct i as [url e|now url|now|now|c l]; try done; cbn [step].
  - rewrite onEvent_closed, onEvent_listeners.
    split_and!; [done | done | by apply heard_onEvent_no_listener].
  - unfold onEose.
    replace (closed s) with (closed (with_eose ({[url]} ∪ eose s) s)) in Hc |- * by done.
    case_match.
    + rewrite close_when_closed by done. unfold fst, snd.
      by rewrite app_nil_r, heard_emit_no_listener.
    + unfold fst, snd. by rewrite heard_emit_no_listener.
  - by rewrite close_when_closed.
  - by rewrite close_when_closed.
Qed.

Lemma run_closed_unheard ins s :
  truthy_num (closed s) = true →
  listeners s = [] →
  registers ins = false →
  closed (run env ins s).1 = closed s
  ∧ listeners (run env ins s).1 = []
  ∧ heard (run env ins s).2 = [].
Proof.
  revert s. induction ins as [|i ins IH]; intros s Hc Hl Hreg; [done|].
  assert (registers [i] = false ∧ registers ins = false) as [Hri Hrins].
  { unfold registers in *. simpl in *. rewrite orb_false_r.
    by apply orb_false_iff in Hreg. }
  rewrite run_cons. cbn [fst snd].
  destruct (step_closed_unheard i s Hc Hl Hri) as (H1 & H2 & H3).
  assert (truthy_num (closed (step env i s).1) = true) as Hc1 by by rewrite H1.
  destruct (IH _ Hc1 H2 Hrins) as (I1 & I2 & I3).
  rewrite heard_app, H3, I3. split_and!; [congruence | done | done].
Qed.

(** C5, as the code has it.  Take any subscription that has transitioned
    to closed, that is the step [i] that closed an open subscription, and
    whatever happened to it since ([post]: deliveries, EOSE signals, timer
    firings, [close] calls), provided no listener was registered since.  It
    is still closed, with the closed-at reading of that step, and it has no
    listener: nothing delivered since the close has reached a listener of
    the live stream, and a further pair [(url, event)] reaches none either,
    because [close] released them all.  But [onEvent] does not look at
    [closed].  The pair is recorded in [seen]: a new id is entered with its
    attribution, a known id has the relay appended when it is shareable and
    not yet listed.  An event whose id is new, whose signature verifies and
    which matches the filters goes through [emit] and is pushed to the
    Projection Registry, unless [shouldProject] is [false]; no other event
    is.  And a listener registered after the close is called with it. *)
Theorem closed_subscription_reaches_no_listener
    (s : t) (i : input) (post : list input) (url : string) (event : Event.t)
    (l : Listener) :
  truthy_num (closed s) = false →
  truthy_num (closed (step env i s).1) = true →
  registers post = false →
  let c := (run env post (step env i s).1).1 in
  let e' := Event.default_content event in
  let passes :=
    bool_decide (seen c !! Event.id event = None)
    && truthy_bool (tryFunc (verifySignature env e'))
    && matchFilters env (Opts.filters (opts s)) e' in
  (closed c = closed (step env i s).1 ∧ listeners c = [])
  ∧ heard (run env post (step env i s).1).2 = []
  ∧ heard (onEvent env url event c).2 = []
  ∧ closed (onEvent env url event c).1 = closed c
  ∧ seen (onEvent env url event c).1 !! Event.id event =
      Some (match seen c !! Event.id event with
            | Some l0 => if negb (bool_decide (url ∈ l0)) && isShareableRelay env url
                         then l0 ++ [url] else l0
            | None => if isShareableRelay env url then [url] else []
            end)
  ∧ emitted (onEvent env url event c).2 = (if passes then [e'] else [])
  ∧ projected (onEvent env url event c).2 =
      (if passes && bool_decide (Opts.shouldProject (opts s) ≠ Some false)
       then [e'] else [])
  ∧ stream_of l (onEvent env url event (on OnEvent l c)).2 =
      (if passes then [e'] else []).
Proof.
  intros Hopen Hclosed Hreg. cbv zeta.
  pose proof (step_closing_releases i s Hopen Hclosed) as Hnone.
  destruct (run_closed_unheard post _ Hclosed Hnone Hreg) as (Hsame & Hl & Hheard).
  assert (opts (run env post (step env i s).1).1 = opts s) as Hopts.
  { by rewrite run_opts, step_opts. }
  set (c := (run env post (step env i s).1).1) in *.
  split; [done|]. split; [done|].
  split; [by apply heard_onEvent_no_listener|].
  split; [apply onEvent_closed|].
  assert (sole_listener l (on OnEvent l c)) as Hsole.
  { unfold sole_listener, on. simpl. rewrite Hl. simpl. by rewrite filter_cons_True. }
  pose proof (onEvent_stream env l url event _ Hsole) as Hstream.
  destruct (seen c !! Event.id event) as [l0|] eqn:Hs.
  - rewrite (bool_decide_false (Some l0 = None)) by done. cbn [andb].
    rewrite Hstream.
    assert (seen (on OnEvent l c) !! Event.id event = Some l0) as Hs' by done.
    rewrite (onEvent_duplicate env _ _ _ _ Hs), (onEvent_duplicate env _ _ _ _ Hs').
    split_and!; try done.
    destruct (negb (bool_decide (url ∈ l0)) && isShareableRelay env url); simpl;
      [by rewrite lookup_insert_eq | done].
  - rewrite (bool_decide_true (None = None)) by done. cbn [andb].
    rewrite Hstream.
    assert (seen (on OnEvent l c) !! Event.id event = None) as Hs' by done.
    destruct (onEvent_first_stages env url event c Hs) as (_ & _ & Hp & He).
    destruct (onEvent_first_stages env url event _ Hs') as (_ & _ & _ & He').
    replace (opts (on OnEvent l c)) with (opts c) in He' by done.
    rewrite Hopts in Hp, He, He'. rewrite Hp, He, He'.
    split_and!; try done.
    rewrite (onEvent_first env _ _ _ Hs). simpl. by rewrite lookup_insert_eq.
Qed.

End AfterClose.

(** The subscription of section 8, closed by a caller; R1 signals EOSE to
    it, then sends [e2]. *)
Lemma closed_subscription_reaches_no_listener_witness :
  ∃ sub tr,
    Subscription.subscribe Fixture.env 1000 Fixture.opts = (tr, Returned sub)
    ∧ let c := (Subscription.run Fixture.env [Subscription.Eose 1200 Fixture.R1]
                  (Subscription.close 1100 sub).1).1 in
      heard (Subscription.onEvent Fixture.env Fixture.R1 Fixture.e2 c).2 = []
      ∧ Subscription.closed (Subscription.onEvent Fixture.env Fixture.R1 Fixture.e2 c).1
        = Some 1100
      ∧ projected (Subscription.onEvent Fixture.env Fixture.R1 Fixture.e2 c).2
        = [Fixture.e2]
      ∧ stream_of 9%nat
          (Subscription.onEvent Fixture.env Fixture.R1 Fixture.e2
             (Subscription.on OnEvent 9%nat c)).2 = [Fixture.e2].
Proof.
  eexists _, _. split; [reflexivity|].
  pose proof (closed_subscription_reaches_no_listener Fixture.env Fixture.fresh
                (Subscription.Close 1100) [Subscription.Eose 1200 Fixture.R1]
                Fixture.R1 Fixture.e2 9%nat eq_refl eq_refl eq_refl) as H.
  cbv zeta in H.
  destruct H as ((Hc & _) & _ & Hh & Hcl & _ & _ & Hp & Hs).
  split; [exact Hh|]. split; [exact (eq_trans Hcl Hc)|].
  split; [exact Hp | exact Hs].
Defined.

(** C5 as stated fails: the subscription of section 8 has closed at the
    second EOSE; R1 then delivers [e2], and [e2] is pushed to the
    Projection Registry. *)
Lemma closed_subscription_still_projects :
  option_map
    (λ x : Subscription.t * list call,
       (Subscription.closed x.1,
        projected (Subscription.onEvent Fixture.env Fixture.R1 Fixture.e2 x.1).2))
    (Fixture.outcome_of Fixture.opts Fixture.inputs)
  = Some (Some 1300, [Fixture.e2]).
Proof. vm_compute. reflexivity. Qed.

(* ===================================================================== *)
(** ** End of stored events                                               *)
(* ===================================================================== *)

(** C4.  The subscription of section 8 with R1 listed twice, run on the
    code.  The executor was subscribed for the one URL [R1]; R1 signals
    EOSE, so every queried relay has; the subscription is still open, its
    completion value pending and the transport not released, because
    [onEose] compares the size of the EOSE set with the length of the relay
    list as given, 1 against 2.  A second signal from R1 changes nothing. *)
Theorem eose_with_repeated_relay_does_not_close :
  option_map
    (λ x : Subscription.t * list call,
       (Subscription.urls x.1, elements (Subscription.eose x.1),
        Subscription.closed x.1, Subscription.result x.1, unsubscribes x.2))
    (Fixture.outcome_of Fixture.opts_twice
       [Subscription.Eose 1200 Fixture.R1; Subscription.Eose 1300 Fixture.R1])
  = Some ([Fixture.R1], [Fixture.R1], None, None, 0%nat).
Proof. vm_compute. reflexivity. Qed.

Section Eose.

Import Subscription.

(** With a timeout and a relay list without repetition, the signal that
    completes the set closes the subscription at once. *)
Lemma eose_closes_when_relays_distinct now url s :
  truthy_num (Opts.timeout (opts s)) = true →
  truthy_num (closed s) = false →
  NoDup (Opts.relays (opts s)) →
  {[url]} ∪ eose s = list_to_set (Opts.relays (opts s)) →
  closed (onEose now url s).1 = Some now
  ∧ unsubscribes (onEose now url s).2 = 1%nat.
Proof.
  intros Ht Hc Hnd Hall. unfold onEose.
  replace (opts (with_eose ({[url]} ∪ eose s) s)) with (opts s) by done.
  replace (eose (with_eose ({[url]} ∪ eose s) s)) with ({[url]} ∪ eose s) by done.
  rewrite Ht, Hall, size_list_to_set, bool_decide_true by done.
  simpl andb. cbv iota.
  pose proof (close_open_calls now (with_eose (list_to_set (Opts.relays (opts s))) s) Hc)
    as (H1 & H2 & _).
  rewrite <- Hall in H1, H2 |- *.
  destruct (close now _) as [s' tr']. unfold fst, snd in *.
  by rewrite unsubscribes_app, unsubscribes_emit.
Qed.

Lemma size_list_to_set_le (l : list string) :
  (size (list_to_set l : gset string) ≤ length l)%nat.
Proof.
  induction l as [|x l IH]; simpl; [done|].
  rewrite size_union_alt, size_singleton.
  assert (size (list_to_set l ∖ {[x]} : gset string) ≤ size (list_to_set l : gset string))%nat
    by (apply subseteq_size; set_solver).
  lia.
Qed.

(** A list with a repetition has more entries than distinct members. *)
Lemma size_list_to_set_lt (l : list string) :
  ¬ NoDup l → (size (list_to_set l : gset string) < length l)%nat.
Proof.
  induction l as [|x l IH]; intros Hdup; [destruct Hdup; constructor|].
  simpl. destruct (decide (x ∈ l)) as [Hin|Hnin].
  - replace ({[x]} ∪ list_to_set l : gset string) with (list_to_set l : gset string)
      by set_solver.
    pose proof (size_list_to_set_le l). lia.
  - assert (¬ NoDup l) as Hl by (intros ?; apply Hdup; by constructor).
    specialize (IH Hl).
    rewrite size_union_alt, size_singleton.
    assert (size (list_to_set l ∖ {[x]} : gset string) ≤ size (list_to_set l : gset string))%nat
      by (apply subseteq_size; set_solver).
    lia.
Qed.

(** With a relay list that repeats a URL, no signal from a listed relay ever
    closes the subscription: the set of relays that signalled stays smaller
    than the list is long. *)
Lemma eose_never_closes_when_relay_repeated now url s :
  ¬ NoDup (Opts.relays (opts s)) →
  {[url]} ∪ eose s ⊆ list_to_set (Opts.relays (opts s)) →
  closed (onEose now url s).1 = closed s
  ∧ unsubscribes (onEose now url s).2 = 0%nat
  ∧ eose (onEose now url s).1 = {[url]} ∪ eose s.
Proof.
  intros Hdup Hsub. unfold onEose.
  replace (opts (with_eose ({[url]} ∪ eose s) s)) with (opts s) by done.
  replace (eose (with_eose ({[url]} ∪ eose s) s)) with ({[url]} ∪ eose s) by done.
  pose proof (subseteq_size _ _ Hsub) as Hle.
  pose proof (size_list_to_set_lt _ Hdup) as Hlt.
  rewrite bool_decide_false by lia.
  rewrite andb_false_r. unfold fst, snd.
  by rewrite unsubscribes_emit.
Qed.

End Eose.

(* ===================================================================== *)
(** ** Opening                                                            *)
(* ===================================================================== *)

Section Opening.

Context (env : Env).

Import Subscription.





Context (normalize : string → string) (malformed : Filter.t → bool).


End Opening.


(* ===================================================================== *)
(** ** The persistent loop                                                *)
(* ===================================================================== *)

Section PersistentLoop.

Context (env : Env).

Import Subscription Persistent.




(** The first subscription of the loop is opened with the options given. *)
Lemma persistent_head epochs o s :
  subscribePersistent env epochs o !! 0%nat = Some s → opts s = o.
Proof.
  destruct epochs as [|ep rest]; simpl; [done|].
  destruct (subscribe env (ep_opened ep) o) as [tr [sub|]] eqn:Hsub; [|done].
  apply subscribe_fresh in Hsub as (_ & _ & _ & _ & _ & Ho).
  case_match; intros [= <-]; by rewrite run_opts.
Qed.


End PersistentLoop.

(* ===================================================================== *)
(** ** Deduplication                                                      *)
(* ===================================================================== *)

Section Uniq.

Context {A : Type} (f : A → string).

Lemma uniqBy_from_app s (l1 l2 : list A) :
  uniqBy_from f s (l1 ++ l2) =
  uniqBy_from f s l1 ++ uniqBy_from f (s ∪ list_to_set (f <$> l1)) l2.
Proof.
  revert s. induction l1 as [|x l1 IH]; intros s; simpl.
  - by rewrite (right_id_L ∅ (∪)).
  - case_decide as Hx.
    + rewrite IH. do 2 f_equal. set_solver.
    + simpl. rewrite IH. do 3 f_equal. set_solver.
Qed.

(** What is kept comes from the list and has a key not kept before. *)
Lemma uniqBy_from_elem s (l : list A) x :
  x ∈ uniqBy_from f s l → x ∈ l ∧ f x ∉ s.
Proof.
  revert s. induction l as [|y l IH]; intros s; simpl; [by intros ?%elem_of_nil|].
  case_decide as Hy.
  - intros [? ?]%IH. split; [by right | done].
  - intros [->|Hin]%elem_of_cons; [split; [by left | done]|].
    apply IH in Hin as [? ?]. split; [by right | set_solver].
Qed.

Lemma uniqBy_from_covered s (l : list A) :
  (∀ x, x ∈ l → f x ∈ s) → uniqBy_from f s l = [].
Proof.
  induction l as [|y l IH]; intros Hcov; simpl; [done|].
  rewrite decide_True by (apply Hcov; by left).
  apply IH. intros x Hx. apply Hcov. by right.
Qed.

Lemma uniqBy_from_idem s (l : list A) :
  uniqBy_from f s (uniqBy_from f s l) = uniqBy_from f s l.
Proof.
  revert s. induction l as [|y l IH]; intros s; simpl; [done|].
  case_decide as Hy; [apply IH|].
  simpl. rewrite decide_False by done. by rewrite IH.
Qed.

(** The distinct keys of what is kept. *)
Lemma uniqBy_from_NoDup s (l : list A) : NoDup (f <$> uniqBy_from f s l).
Proof.
  revert s. induction l as [|y l IH]; intros s; simpl; [constructor|].
  case_decide as Hy; [apply IH|].
  simpl. constructor; [|apply IH].
  intros (x & Hfx & Hx)%list_elem_of_fmap.
  apply uniqBy_from_elem in Hx as [_ Hx]. set_solver.
Qed.

(** Merging the same prefix in again changes nothing. *)
Lemma uniqBy_prepend_idem (t o : list A) :
  uniqBy f (t ++ uniqBy f (t ++ o)) = uniqBy f (t ++ o).
Proof.
  unfold uniqBy. rewrite (uniqBy_from_app ∅ t o).
  rewrite (uniqBy_from_app ∅ t), uniqBy_from_app.
  rewrite (uniqBy_from_covered _ (uniqBy_from f ∅ t)).
  - simpl. f_equal.
    replace (∅ ∪ list_to_set (f <$> t) ∪ list_to_set (f <$> uniqBy_from f ∅ t))
      with (∅ ∪ list_to_set (f <$> t) : gset string).
    + apply uniqBy_from_idem.
    + apply set_eq. intros k. split; [set_solver|].
      intros [Hk|Hk]%elem_of_union; [done|].
      apply elem_of_list_to_set, list_elem_of_fmap in Hk as (x & -> & Hx).
      apply uniqBy_from_elem in Hx as [Hx _]. set_solver.
  - intros x [Hx _]%uniqBy_from_elem. set_solver.
Qed.

End Uniq.

(* ===================================================================== *)
(** ** Channel projections                                                *)
(* ===================================================================== *)

Section ChannelHandlers.

Context (env : Projections.Env).

Import Projections.

(** [assocPath(["nip28", "owner"], v)] is idempotent and leaves the
    timestamp alone. *)
Lemma assoc_nip28_owner_idem v c :
  Channel.assoc_nip28_owner v (Channel.assoc_nip28_owner v c)
  = Channel.assoc_nip28_owner v c.
Proof. done. Qed.

(** Writing the same update under the same timestamp twice is writing it
    once, for a [modify] that is idempotent and keeps the timestamp. *)
Lemma updateKey_idem k timestamp u modify m :
  (∀ c, Channel.updated_at (modify c) = Channel.updated_at c) →
  (∀ c, modify (modify c) = modify c) →
  updateKey k timestamp u modify (updateKey k timestamp u modify m)
  = updateKey k timestamp u modify m.
Proof.
  intros Hts Hidem. unfold updateKey, key_get.
  rewrite lookup_insert_eq, insert_insert_eq. f_equal. simpl.
  rewrite Hts.
  destruct (Channel.updated_at (default Channel.empty (m !! k))) as [seen|] eqn:Hseen.
  - destruct (seen <? timestamp) eqn:Hlt; simpl.
    + rewrite Z.ltb_irrefl. apply Hidem.
    + rewrite Hseen, Hlt. apply Hidem.
  - simpl. rewrite Z.ltb_irrefl. apply Hidem.
Qed.

Lemma handler40_idem e st : handler40 env e (handler40 env e st) = handler40 env e st.
Proof.
  unfold handler40.
  destruct (parse_content env e) as [m|]; [|done].
  destruct (Json.truthy (Json.get "name" m)); [|done].
  unfold with_channels. simpl. f_equal.
  by apply updateKey_idem.
Qed.

(** The merge of the kind-42 handler applied to its own result. *)
Lemma add_message_idem pubkeys channelId e channel :
  add_message env pubkeys channelId e (Some (add_message env pubkeys channelId e channel))
  = add_message env pubkeys channelId e channel.
Proof.
  unfold add_message.
  destruct (bool_decide (Event.pubkey e ∈ pubkeys)); simpl.
  - unfold Channel.with_last_sent. simpl.
    pose proof (uniqBy_prepend_idem Event.id [e]
                  (default [] (Channel.messages (default Channel.empty channel)))) as Hm.
    simpl in Hm. rewrite Hm.
    unfold uniq. rewrite (uniqBy_prepend_idem (λ x, x)).
    f_equal. f_equal. lia.
  - unfold Channel.with_last_received. simpl.
    pose proof (uniqBy_prepend_idem Event.id [e]
                  (default [] (Channel.messages (default Channel.empty channel)))) as Hm.
    simpl in Hm. rewrite Hm.
    unfold uniq. rewrite (uniqBy_prepend_idem (λ x, x)).
    f_equal. f_equal. lia.
Qed.

Lemma handler42_idem e st : handler42 env e (handler42 env e st) = handler42 env e st.
Proof.
  unfold handler42.
  destruct (negb (truthy_str (getMeta env "e" e))); [done|].
  unfold with_channels, key_update. simpl. f_equal.
  rewrite lookup_insert_eq, insert_insert_eq. f_equal.
  apply add_message_idem.
Qed.

(** What the kind-42 merge leaves in the cell: messages with distinct ids,
    relays without repetition, and the larger of the old timestamp and
    the event's. *)
Lemma add_message_merges pubkeys channelId e channel :
  let c := add_message env pubkeys channelId e channel in
  let old := default Channel.empty channel in
  NoDup (Event.id <$> default [] (Channel.messages c))
  ∧ NoDup (default [] (Channel.relays c))
  ∧ (if bool_decide (Event.pubkey e ∈ pubkeys)
     then Channel.last_sent c
          = Some (Z.max (or_zero (Channel.last_sent old)) (Event.created_at e))
     else Channel.last_received c
          = Some (Z.max (or_zero (Channel.last_received old)) (Event.created_at e))).
Proof.
  unfold add_message.
  destruct (bool_decide (Event.pubkey e ∈ pubkeys)); simpl.
  - split_and!; [apply uniqBy_from_NoDup | | done].
    rewrite <- (list_fmap_id (uniq _)). apply (uniqBy_from_NoDup (λ x, x)).
  - split_and!; [apply uniqBy_from_NoDup | | done].
    rewrite <- (list_fmap_id (uniq _)). apply (uniqBy_from_NoDup (λ x, x)).
Qed.

(** C9.  The kind-40 (channel metadata) and kind-42 (channel message)
    handlers are idempotent: applying a handler to an event and then to
    the same event again leaves the stores as one application does. *)
Theorem channel_handlers_are_idempotent (e : Event.t) (st : State) :
  handler40 env e (handler40 env e st) = handler40 env e st
  ∧ handler42 env e (handler42 env e st) = handler42 env e st.
Proof. split; [apply handler40_idem | apply handler42_idem]. Qed.

(** C10.  The kind-41 handler changes nothing when the event has no
    (non-empty) "e" tag, or when the cell of the channel it names records
    no owner or an owner other than the event's author: only an event
    signed by the recorded owner can change a channel. *)
Theorem metadata_update_requires_owner (e : Event.t) (st : State) :
  truthy_str (getMeta env "e" e) = false
  ∨ recorded_owner (key_get (or_empty (getMeta env "e" e)) (channels st))
    ≠ Some (Event.pubkey e) →
  handler41 env e st = st.
Proof.
  intros Hno. unfold handler41.
  destruct (truthy_str (getMeta env "e" e)); simpl; [|done].
  destruct Hno as [?|Hne]; [done|].
  rewrite bool_decide_true; [done|]. congruence.
Qed.

End ChannelHandlers.

(** mallory's kind-41 event against alice's channel-X. *)
Lemma metadata_update_requires_owner_witness :
  Projections.handler41 Fixture.penv Fixture.e41 Fixture.store = Fixture.store.
Proof.
  apply (metadata_update_requires_owner Fixture.penv Fixture.e41 Fixture.store).
  right. vm_compute. discriminate.
Defined.

(* ===================================================================== *)
(** ** More on the subscription: the seen index                           *)
(* ===================================================================== *)

Section SeenIndex.

Context (env : Env).

Import Subscription.

Lemma step_seen_grows i s ident l :
  seen s !! ident = Some l →
  ∃ l', seen (step env i s).1 !! ident = Some (l ++ l').
Proof.
  intros Hl. destruct i as [url e|now url|now|now|c li].
  2-5: match goal with |- context [step env ?i ?s0] =>
         destruct (step_not_delivery env i s0) as (-> & _); [done|]
       end; exists []; by rewrite app_nil_r.
  simpl. destruct (decide (Event.id e = ident)) as [<-|Hne].
  - rewrite (onEvent_duplicate env _ _ _ _ Hl).
    destruct (negb (bool_decide (url ∈ l)) && isShareableRelay env url); simpl.
    + exists [url]. by rewrite lookup_insert_eq.
    + exists []. by rewrite app_nil_r.
  - exists []. by rewrite onEvent_seen_other, app_nil_r.
Qed.

(** X1.  The seen index only grows: over any sequence of deliveries, EOSE
    signals, timer firings, [close] calls and registrations, an id that is
    in [seen] stays in it, and its attribution list is only ever extended
    at the end. *)
Theorem seen_index_only_grows (ins : list input) (s : t) (ident : string) (l : list string) :
  seen s !! ident = Some l →
  ∃ l', seen (run env ins s).1 !! ident = Some (l ++ l').
Proof.
  revert s l. induction ins as [|i ins IH]; intros s l Hl.
  { exists []. by rewrite app_nil_r. }
  simpl. destruct (step_seen_grows i s ident l Hl) as (l1 & H1).
  destruct (step env i s) as [s1 tr1]. unfold fst in H1.
  destruct (IH s1 _ H1) as (l2 & H2).
  destruct (run env ins s1) as [s2 tr2]. unfold fst in *.
  exists (l1 ++ l2). by rewrite app_assoc.
Qed.

Lemma onEvent_attribution_clean url e s :
  attribution_clean env s → attribution_clean env (onEvent env url e s).1.
Proof.
  intros Hs ident l.
  destruct (decide (Event.id e = ident)) as [<-|Hne].
  - destruct (seen s !! Event.id e) as [l0|] eqn:Hl0.
    + rewrite (onEvent_duplicate env _ _ _ _ Hl0).
      destruct (Hs _ _ Hl0) as [Hnd Hsh].
      destruct (bool_decide (url ∈ l0)) eqn:Hin; simpl.
      { rewrite Hl0. intros [= <-]. done. }
      destruct (isShareableRelay env url) eqn:Hu; simpl.
      * rewrite lookup_insert_eq. intros [= <-]. split.
        -- apply NoDup_app. split_and!; [done | | apply NoDup_singleton].
           intros x Hx ->%list_elem_of_singleton.
           by apply bool_decide_eq_false in Hin.
        -- apply Forall_app. split; [done|]. by constructor.
      * rewrite Hl0. intros [= <-]. done.
    + rewrite (onEvent_first env _ _ _ Hl0). simpl. rewrite lookup_insert_eq.
      intros [= <-]. destruct (isShareableRelay env url) eqn:Hu.
      * split; [apply NoDup_singleton | by repeat constructor].
      * split; constructor.
  - rewrite onEvent_seen_other by done. apply Hs.
Qed.

Lemma step_attribution_clean i s :
  attribution_clean env s → attribution_clean env (step env i s).1.
Proof.
  intros Hs. destruct i as [url e|now url|now|now|c li].
  2-5: match goal with |- context [step env ?i ?s0] =>
         destruct (step_not_delivery env i s0) as (Hseen & _); [done|]
       end; unfold attribution_clean; by rewrite Hseen.
  by apply onEvent_attribution_clean.
Qed.

Lemma run_attribution_clean ins s :
  attribution_clean env s → attribution_clean env (run env ins s).1.
Proof.
  revert s. induction ins as [|i ins IH]; intros s Hs; [done|].
  simpl. pose proof (step_attribution_clean i s Hs) as H1.
  destruct (step env i s) as [s1 tr1]. unfold fst in H1.
  pose proof (IH s1 H1) as H2.
  destruct (run env ins s1) as [s2 tr2]. done.
Qed.

(** X2.  Whatever is delivered to a subscription that [subscribe] returned,
    by whichever relays and however often, every attribution list of its
    seen index names only relays that [isShareableRelay] accepts, and names
    none twice. *)
Theorem attribution_lists_stay_clean
    (now : Z) (o : Opts.t) (tr : list call) (sub : t) (ins : list input)
    (ident : string) (l : list string) :
  subscribe env now o = (tr, Returned sub) →
  seen (run env ins sub).1 !! ident = Some l →
  NoDup l ∧ Forall (λ url, isShareableRelay env url = true) l.
Proof.
  intros (_ & _ & _ & Hseen & _)%subscribe_fresh.
  apply (run_attribution_clean ins sub).
  intros i l0. by rewrite Hseen, lookup_empty.
Qed.

End SeenIndex.

(** The id [A] of section 8, known from R1, after R2 and R1 deliver it again. *)
Lemma seen_index_only_grows_witness :
  ∃ l',
    Subscription.seen
      (Subscription.run Fixture.env
         [Subscription.Deliver Fixture.R2 Fixture.e1; Subscription.Deliver Fixture.R1 Fixture.e1]
         (Subscription.onEvent Fixture.env Fixture.R1 Fixture.e1 Fixture.fresh).1).1 !! "A"
    = Some ([Fixture.R1] ++ l').
Proof.
  apply (seen_index_only_grows Fixture.env).
  vm_compute. reflexivity.
Defined.

(** The attribution of [A] after the scenario of section 8. *)
Lemma attribution_lists_stay_clean_witness :
  ∃ sub tr l,
    Subscription.subscribe Fixture.env 1000 Fixture.opts = (tr, Returned sub)
    ∧ Subscription.seen (Subscription.run Fixture.env Fixture.inputs sub).1 !! "A" = Some l
    ∧ NoDup l.
Proof.
  eexists _, _, _. split; [reflexivity|]. split; [vm_compute; reflexivity|].
  refine (proj1 (attribution_lists_stay_clean Fixture.env 1000 Fixture.opts _ _
                   Fixture.inputs "A" _ _ _)).
  - reflexivity.
  - vm_compute. reflexivity.
Defined.

(* ===================================================================== *)
(** ** More on the subscription: what leaves it                           *)
(* ===================================================================== *)

Section Outputs.

Context (env : Env).

Import Subscription.

Lemma onEvent_outputs url e s :
  let tr := (onEvent env url e s).2 in
  Forall (accepted env (Opts.filters (opts s))) (emitted tr)
  ∧ projected tr = if bool_decide (Opts.shouldProject (opts s) ≠ Some false)
                   then emitted tr else [].
Proof.
  simpl. destruct (seen s !! Event.id e) as [l|] eqn:Hl.
  - rewrite (onEvent_duplicate env _ _ _ _ Hl). simpl.
    split; [constructor | by case_bool_decide].
  - rewrite (onEvent_first env _ _ _ Hl). unfold snd.
    destruct (truthy_bool (tryFunc (verifySignature env (Event.default_content e))))
      eqn:Hv; cbv [negb].
    2: { split; [constructor | by case_bool_decide]. }
    destruct (matchFilters env (Opts.filters (opts s)) (Event.default_content e))
      eqn:Hm; cbv [negb].
    2: { split; [constructor | by case_bool_decide]. }
    rewrite !emitted_app, !projected_app, emitted_emit_event, projected_emit.
    split.
    + case_bool_decide; simpl; repeat constructor; try done.
      all: unfold Event.default_content; simpl; eauto.
    + by case_bool_decide.
Qed.

(** Over any inputs: what is emitted was accepted, and what is pushed is
    what is emitted, or nothing. *)
Lemma run_outputs ins s :
  Forall (accepted env (Opts.filters (opts s))) (emitted (run env ins s).2)
  ∧ projected (run env ins s).2
    = if bool_decide (Opts.shouldProject (opts s) ≠ Some false)
      then emitted (run env ins s).2 else [].
Proof.
  revert s. induction ins as [|i ins IH]; intros s.
  { simpl. split; [constructor | by case_bool_decide]. }
  simpl.
  assert (Forall (accepted env (Opts.filters (opts s))) (emitted (step env i s).2)
          ∧ projected (step env i s).2
            = if bool_decide (Opts.shouldProject (opts s) ≠ Some false)
              then emitted (step env i s).2 else []) as [H1 H2].
  { destruct i as [url e|now url|now|now|c li].
    2-5: match goal with |- context [step env ?i ?s0] =>
           destruct (step_not_delivery env i s0) as (_ & _ & _ & -> & ->); [done|]
         end; split; [constructor | by case_bool_decide].
    apply onEvent_outputs. }
  pose proof (step_opts env i s) as Ho.
  destruct (step env i s) as [s1 tr1]. unfold fst, snd in *.
  destruct (IH s1) as [I1 I2]. rewrite Ho in I1, I2.
  destruct (run env ins s1) as [s2 tr2]. unfold fst, snd in *.
  rewrite emitted_app, projected_app, H2, I2. split.
  - apply Forall_app. done.
  - case_bool_decide; done.
Qed.

(** X3.  Nothing leaves a subscription unchecked: every event it emits on
    the live stream or pushes to the Projection Registry, over any sequence
    of inputs, has a signature that verified, matches the filters the
    subscription was opened with, and carries a content (the empty string
    if it arrived without one). *)
Theorem only_accepted_events_leave (ins : list input) (s : t) :
  Forall (accepted env (Opts.filters (opts s))) (emitted (run env ins s).2)
  ∧ Forall (accepted env (Opts.filters (opts s))) (projected (run env ins s).2).
Proof.
  destruct (run_outputs ins s) as [H1 H2]. split; [done|].
  rewrite H2. case_bool_decide; [done | constructor].
Qed.

(** X4.  [shouldProject] is all or nothing: over any sequence of inputs the
    events pushed to the Projection Registry are exactly the events emitted
    on the live stream, in the same order, unless [shouldProject] is
    [false], in which case nothing is ever pushed.  An absent
    [shouldProject] counts as [true]. *)
Theorem projection_follows_the_stream (ins : list input) (s : t) :
  projected (run env ins s).2
  = if bool_decide (Opts.shouldProject (opts s) ≠ Some false)
    then emitted (run env ins s).2 else [].
Proof.
  revert s. induction ins as [|i ins IH]; intros s.
  { simpl. by case_bool_decide. }
  simpl.
  assert (projected (step env i s).2
          = if bool_decide (Opts.shouldProject (opts s) ≠ Some false)
            then emitted (step env i s).2 else []) as H2.
  { destruct i as [url e|now url|now|now|c li].
    2-5: match goal with |- context [step env ?i ?s0] =>
           destruct (step_not_delivery env i s0) as (_ & _ & _ & -> & ->); [done|]
         end; by case_bool_decide.
    apply onEvent_outputs. }
  pose proof (step_opts env i s) as Ho.
  destruct (step env i s) as [s1 tr1]. unfold fst, snd in *.
  pose proof (IH s1) as I2. rewrite Ho in I2.
  destruct (run env ins s1) as [s2 tr2]. unfold fst, snd in *.
  rewrite emitted_app, projected_app, H2, I2.
  by case_bool_decide.
Qed.

End Outputs.

(* ===================================================================== *)
(** ** The cursor of the persistent loop                                  *)
(* ===================================================================== *)

Section CursorAdvance.

Context (env : Env).

Import Subscription Persistent.


End CursorAdvance.




(* ===================================================================== *)
(** ** More on the subscription: when it closes                           *)
(* ===================================================================== *)

Section WhenItCloses.

Context (env : Env).

Import Subscription.

Lemma step_without_timeout i s :
  truthy_num (Opts.timeout (opts s)) = false →
  closes [i] = false →
  closed (step env i s).1 = closed s
  ∧ result (step env i s).1 = result s
  ∧ listeners (step env i s).1 = listeners s ++ (match i with On c l => [(c, l)] | _ => [] end)
  ∧ unsubscribes (step env i s).2 = 0%nat
  ∧ resolved (step env i s).2 = [].
Proof.
  intros Ht Hc. destruct i as [url e|now url|now|now|c l]; try done; cbn [step].
  - rewrite onEvent_closed, onEvent_result, onEvent_listeners, app_nil_r.
    by destruct (onEvent_quiet env url e s) as (-> & _ & ->).
  - unfold onEose.
    replace (opts (with_eose ({[url]} ∪ eose s) s)) with (opts s) by done.
    rewrite Ht. cbn [andb]. unfold fst, snd.
    by rewrite unsubscribes_emit, resolved_emit, app_nil_r.
Qed.

Lemma run_without_timeout (ins : list input) (s : t) :
  truthy_num (Opts.timeout (opts s)) = false →
  closes ins = false →
  closed (run env ins s).1 = closed s
  ∧ result (run env ins s).1 = result s
  ∧ unsubscribes (run env ins s).2 = 0%nat
  ∧ resolved (run env ins s).2 = [].
Proof.
  revert s. induction ins as [|i ins IH]; intros s Ht Hc; [done|].
  assert (closes [i] = false ∧ closes ins = false) as [Hi Hins].
  { unfold closes in *. simpl in *. rewrite orb_false_r.
    by apply orb_false_iff in Hc. }
  simpl. pose proof (step_without_timeout i s Ht Hi) as (H1 & H2 & _ & H3 & H4).
  pose proof (step_opts env i s) as Ho.
  destruct (step env i s) as [s1 tr1]. unfold fst, snd in *.
  assert (truthy_num (Opts.timeout (opts s1)) = false) as Ht1 by by rewrite Ho.
  pose proof (IH s1 Ht1 Hins) as (I1 & I2 & I3 & I4).
  destruct (run env ins s1) as [s2 tr2]. unfold fst, snd in *.
  rewrite unsubscribes_app, resolved_app, H3, H4, I3, I4.
  split_and!; [congruence | congruence | done | done].
Qed.

(** X5.  A subscription opened without a timeout (absent, or zero) is never
    closed by end-of-stored-events signals, however many relays send them:
    as long as neither a caller nor a timer calls [close], it stays as open
    or closed as it was, its completion value stays as it was, and the
    transport is not released. *)
Theorem eose_without_timeout_never_closes (ins : list input) (s : t) :
  truthy_num (Opts.timeout (opts s)) = false →
  closes ins = false →
  closed (run env ins s).1 = closed s
  ∧ result (run env ins s).1 = result s
  ∧ unsubscribes (run env ins s).2 = 0%nat
  ∧ resolved (run env ins s).2 = [].
Proof.
  intros Ht Hc.
  destruct (run_without_timeout ins s Ht Hc) as (Hclosed & Hresult & Hunsub & Hres).
  split_and!; assumption.
Qed.

Lemma close_settles now s :
  now ≠ 0 → settled_iff_closed s → settled_iff_closed (close now s).1.
Proof.
  intros Hnow [[Hr Hc]|[Hr Hc]].
  - rewrite close_when_open by done. right. simpl. rewrite Hr. simpl.
    split; [eauto|]. by apply negb_true_iff, Z.eqb_neq.
  - rewrite close_when_closed by done. by right.
Qed.

Lemma step_settles i s :
  nonzero_reading i → settled_iff_closed s → settled_iff_closed (step env i s).1.
Proof.
  intros Hnz Hs. destruct i as [url e|now url|now|now|c l]; simpl.
  - unfold settled_iff_closed. by rewrite onEvent_result, onEvent_closed.
  - unfold onEose. case_match; [|done].
    pose proof (close_settles now (with_eose ({[url]} ∪ eose s) s)) as Hc.
    destruct (close now _) as [s' tr']. apply Hc; [by apply Hnz | done].
  - apply close_settles; [by apply Hnz | done].
  - apply close_settles; [by apply Hnz | done].
  - done.
Qed.

(** X6.  The completion value and the closed-at field move together: for a
    subscription that [subscribe] returned and any sequence of inputs, the
    deferred is resolved exactly when the subscription is closed, so a
    caller awaiting [result] is released by the first [close] and by
    nothing else.  Every reading of [Date.now()] is taken to be non-zero. *)
Theorem result_settles_exactly_at_close
    (now : Z) (o : Opts.t) (tr : list call) (sub : t) (ins : list input) :
  subscribe env now o = (tr, Returned sub) →
  Forall nonzero_reading ins →
  (is_Some (result (run env ins sub).1) ↔ truthy_num (closed (run env ins sub).1) = true).
Proof.
  intros (_ & Hr & Hc & _)%subscribe_fresh Hnz.
  assert (settled_iff_closed (run env ins sub).1) as Hfin.
  { assert (settled_iff_closed sub) as H0 by (left; by rewrite Hr, Hc).
    clear Hr Hc. revert sub H0. induction ins as [|i ins IH]; intros sub H0; [done|].
    apply Forall_cons in Hnz as [Hi Hnz]. simpl.
    pose proof (step_settles i sub Hi H0) as H1.
    destruct (step env i sub) as [s1 tr1]. unfold fst in H1.
    pose proof (IH Hnz s1 H1) as H2.
    destruct (run env ins s1) as [s2 tr2]. done. }
  destruct Hfin as [[H1 H2]|[H1 H2]].
  - rewrite H1, H2. split; [by intros [? ?] | done].
  - rewrite H2. done.
Qed.

(** X7.  [onEose] counts signals, it does not look at who sent them: with a
    timeout, an open subscription is closed by the signal that brings the
    number of distinct URLs that signalled to the length of the relay list,
    even when that URL is not in the list.  With a relay list without
    repetition, a listed relay has then not signalled yet. *)
Theorem eose_from_unlisted_relay_closes (now : Z) (url : string) (s : t) :
  truthy_num (Opts.timeout (opts s)) = true →
  truthy_num (closed s) = false →
  NoDup (Opts.relays (opts s)) →
  eose s ⊆ list_to_set (Opts.relays (opts s)) →
  url ∉ Opts.relays (opts s) →
  S (size (eose s)) = length (Opts.relays (opts s)) →
  closed (onEose now url s).1 = Some now
  ∧ unsubscribes (onEose now url s).2 = 1%nat
  ∧ ∃ relay, relay ∈ Opts.relays (opts s) ∧ relay ∉ eose (onEose now url s).1.
Proof.
  intros Ht Hc Hnd Hsub Hurl Hsize.
  assert (url ∉ eose s) as Hfresh by set_solver.
  assert (size ({[url]} ∪ eose s) = length (Opts.relays (opts s))) as Hfull.
  { rewrite size_union by set_solver. by rewrite size_singleton. }
  assert (∃ relay, relay ∈ Opts.relays (opts s) ∧ relay ∉ eose s) as (relay & Hin & Hout).
  { destruct (decide (Forall (λ r, r ∈ eose s) (Opts.relays (opts s)))) as [Hall|Hnot].
    - assert (list_to_set (Opts.relays (opts s)) ⊆ eose s) as Hincl.
      { intros r Hr%elem_of_list_to_set. by apply (proj1 (Forall_forall _ _) Hall). }
      pose proof (subseteq_size _ _ Hincl) as Hle.
      rewrite size_list_to_set in Hle by done. lia.
    - apply not_Forall_Exists in Hnot; [|apply _].
      apply Exists_exists in Hnot as (relay & Hin & Hout). eauto. }
  unfold onEose.
  replace (opts (with_eose ({[url]} ∪ eose s) s)) with (opts s) by done.
  replace (eose (with_eose ({[url]} ∪ eose s) s)) with ({[url]} ∪ eose s) by done.
  rewrite Ht, bool_decide_true by done. simpl andb. cbv iota.
  pose proof (close_open_calls now (with_eose ({[url]} ∪ eose s) s) Hc)
    as (H1 & H2 & _).
  assert (eose (close now (with_eose ({[url]} ∪ eose s) s)).1 = {[url]} ∪ eose s) as He.
  { by rewrite close_when_open. }
  destruct (close now _) as [s' tr']. unfold fst, snd in *.
  rewrite unsubscribes_app, unsubscribes_emit. split_and!; [done | done |].
  exists relay. split; [done|]. rewrite He. set_solver.
Qed.

End WhenItCloses.

(** Both relays of section 8 signal EOSE to the subscription opened without
    a timeout. *)
Lemma eose_without_timeout_never_closes_witness :
  Subscription.closed
    (Subscription.run Fixture.env
       [Subscription.Eose 1200 Fixture.R1; Subscription.Eose 1300 Fixture.R2]
       Fixture.fresh_untimed).1 = None.
Proof.
  refine (proj1 (eose_without_timeout_never_closes Fixture.env _ Fixture.fresh_untimed _ _));
    reflexivity.
Defined.

(** The scenario of section 8: closed, and resolved. *)
Lemma result_settles_exactly_at_close_witness :
  is_Some (Subscription.result (Subscription.run Fixture.env Fixture.inputs Fixture.fresh).1)
  ↔ truthy_num (Subscription.closed
                  (Subscription.run Fixture.env Fixture.inputs Fixture.fresh).1) = true.
Proof.
  refine (result_settles_exactly_at_close Fixture.env 1000 Fixture.opts _ Fixture.fresh
            Fixture.inputs _ _).
  - reflexivity.
  - repeat constructor; intros now [= <-]; lia.
Defined.

(** R1 has signalled; R3, which was never queried, signals next, and the
    subscription closes without a word from R2. *)
Lemma eose_from_unlisted_relay_closes_witness :
  Subscription.closed (Subscription.onEose 1300 Fixture.R3 Fixture.after_R1_eose).1
  = Some 1300.
Proof.
  refine (proj1 (eose_from_unlisted_relay_closes 1300 Fixture.R3
                   Fixture.after_R1_eose _ _ _ _ _ _)).
  - reflexivity.
  - reflexivity.
  - compute_done.
  - compute_done.
  - compute_done.
  - vm_compute. reflexivity.
Defined.

(* ===================================================================== *)
(** ** More on the subscription: the caller's callback                    *)
(* ===================================================================== *)

Section Callback.

Context (env : Env).

Import Subscription.

(** One step of an open subscription to which nobody registers: it is
    closed by it, or it keeps its listeners and hands the callback what it
    emits. *)
Lemma step_stream l i s :
  sole_listener l s →
  registers [i] = false →
  truthy_num (closed s) = false →
  nonzero_reading i →
  truthy_num (closed (step env i s).1) = true
  ∨ (truthy_num (closed (step env i s).1) = false
     ∧ sole_listener l (step env i s).1
     ∧ stream_of l (step env i s).2 = emitted (step env i s).2).
Proof.
  intros Hl Hreg Hc Hnz.
  assert (∀ now, reading i = Some now → truthy_num (Some now) = true) as Ht.
  { intros now Hr. simpl. apply negb_true_iff, Z.eqb_neq. by apply Hnz. }
  destruct i as [url e|now url|now|now|c li]; try done; cbn [step].
  - right. rewrite onEvent_closed. unfold sole_listener. rewrite onEvent_listeners.
    split_and!; [done | done | by apply onEvent_stream].
  - unfold onEose. case_match.
    + left. pose proof (close_open_calls now (with_eose ({[url]} ∪ eose s) s) Hc) as (H1 & _).
      destruct (close now _) as [s' tr']. unfold fst in *. rewrite H1. by apply Ht.
    + right. unfold fst, snd. split_and!; [done | done |].
      by rewrite stream_of_emit_other, emitted_emit_other.
  - left. destruct (close_open_calls now s Hc) as (-> & _). by apply Ht.
  - left. destruct (close_open_calls now s Hc) as (-> & _). by apply Ht.
Qed.

(** X8.  The callback given as [opts.onEvent] sees the live stream in full:
    for a subscription that [subscribe] returned, to which no further
    listener is registered and which is still open after a sequence of
    inputs, the events handed to that callback are exactly the events
    emitted, in order.  Every reading of [Date.now()] is taken to be
    non-zero. *)
Theorem callback_hears_the_whole_stream
    (now : Z) (o : Opts.t) (tr : list call) (sub : t) (l : Listener) (ins : list input) :
  subscribe env now o = (tr, Returned sub) →
  Opts.onEvent o = Some l →
  registers ins = false →
  Forall nonzero_reading ins →
  truthy_num (closed (run env ins sub).1) = false →
  stream_of l (run env ins sub).2 = emitted (run env ins sub).2.
Proof.
  intros Hsub Hcb Hreg Hnz Hopen.
  assert (sole_listener l sub ∧ truthy_num (closed sub) = false) as [Hl Hc].
  { pose proof Hsub as (_ & _ & Hc & _)%subscribe_fresh. split; [|by rewrite Hc].
    unfold subscribe, new in Hsub. destruct (start env o) as [tr0 [us|]]; [|done].
    injection Hsub as <- <-. rewrite Hcb. unfold sole_listener.
    destruct (Opts.onEose o), (Opts.onClose o); done. }
  clear Hsub Hcb. revert sub Hl Hc Hopen.
  induction ins as [|i ins IH]; intros sub Hl Hc Hopen; [done|].
  apply Forall_cons in Hnz as [Hi Hnz].
  assert (registers [i] = false ∧ registers ins = false) as [Hri Hrins].
  { unfold registers in *. simpl in *. rewrite orb_false_r.
    by apply orb_false_iff in Hreg. }
  simpl in Hopen |- *.
  destruct (step_stream l i sub Hl Hri Hc Hi) as [Hclosed|(Hstill & Hl1 & Heq)].
  - pose proof (run_closed env ins (step env i sub).1 Hclosed) as (Hsame & _).
    destruct (step env i sub) as [s1 tr1]. unfold fst in *.
    destruct (run env ins s1) as [s2 tr2]. unfold fst in *. congruence.
  - destruct (step env i sub) as [s1 tr1]. unfold fst, snd in *.
    pose proof (IH Hrins Hnz s1 Hl1 Hstill) as IH1.
    destruct (run env ins s1) as [s2 tr2]. unfold fst, snd in *.
    rewrite stream_of_app, emitted_app, Heq, IH1; done.
Qed.

End Callback.

(** The two deliveries and the first EOSE of section 8: listener 7 has heard
    what was emitted. *)
Lemma callback_hears_the_whole_stream_witness :
  stream_of 7%nat
    (Subscription.run Fixture.env
       [Subscription.Deliver Fixture.R1 Fixture.e1; Subscription.Deliver Fixture.R2 Fixture.e1;
        Subscription.Eose 1200 Fixture.R1] Fixture.fresh).2
  = emitted
      (Subscription.run Fixture.env
         [Subscription.Deliver Fixture.R1 Fixture.e1; Subscription.Deliver Fixture.R2 Fixture.e1;
          Subscription.Eose 1200 Fixture.R1] Fixture.fresh).2.
Proof.
  refine (callback_hears_the_whole_stream Fixture.env 1000 Fixture.opts _ Fixture.fresh
            7%nat _ _ _ _ _ _).
  - reflexivity.
  - reflexivity.
  - reflexivity.
  - repeat constructor; intros now [= <-]; lia.
  - vm_compute. reflexivity.
Defined.

(* ===================================================================== *)
(** ** More on the persistent loop                                        *)
(* ===================================================================== *)

Section PersistentOptions.

Context (env : Env).

Import Subscription Persistent.

(** Setting the cursor again forgets the cursor set before. *)
Lemma relaunch_relaunch t1 t2 o : relaunch t2 (relaunch t1 o) = relaunch t2 o.
Proof.
  unfold relaunch, Opts.update_filters. simpl. f_equal.
  rewrite <- list_fmap_compose. apply list_fmap_ext. intros _ f _. done.
Qed.

(** X9.  The loop changes nothing but the cursor, and never stacks cursors:
    the options of the subscription opened after the n-th relaunch are the
    caller's own options with every filter's [since] set to the reading of
    that relaunch.  Relays, timeout, callbacks, [shouldProject], the number
    and order of the filters and every other field of each filter are the
    caller's, in every epoch. *)
Theorem persistent_options_only_change_cursor
    (epochs : list epoch) (o : Opts.t) (n : nat) (ep : epoch) (s : t) :
  epochs !! n = Some ep →
  subscribePersistent env epochs o !! S n = Some s →
  opts s = relaunch (ep_now ep) o.
Proof.
  revert o n. induction epochs as [|ep0 rest IH]; intros o n Hep Hs; [done|].
  simpl in Hs.
  destruct (subscribe env (ep_opened ep0) o) as [tr [sub|]] eqn:Hsub; [|done].
  destruct (result (run env (ep_inputs ep0) sub).1) as [v|] eqn:Hres; [|done].
  destruct n as [|n]; simpl in Hep, Hs.
  - simplify_eq. by apply (persistent_head env rest).
  - rewrite (IH _ _ Hep Hs). apply relaunch_relaunch.
Qed.

(** X10.  Without a timeout the loop does not go round on end-of-stored-events
    signals: if the caller's options have no timeout (absent, or zero) and
    nothing calls [close] on the first subscription, the loop opens that
    one subscription and waits on it, whatever else the epochs contain. *)
Theorem persistent_loop_waits_without_timeout (epochs : list epoch) (o : Opts.t) :
  truthy_num (Opts.timeout o) = false →
  (∀ ep, epochs !! 0%nat = Some ep → closes (ep_inputs ep) = false) →
  (length (subscribePersistent env epochs o) ≤ 1)%nat.
Proof.
  intros Ht Hc. destruct epochs as [|ep rest]; simpl; [lia|].
  destruct (subscribe env (ep_opened ep) o) as [tr [sub|]] eqn:Hsub; [|simpl; lia].
  apply subscribe_fresh in Hsub as (_ & Hr & _ & _ & _ & Ho).
  rewrite <- Ho in Ht.
  destruct (run_without_timeout env (ep_inputs ep) sub Ht (Hc ep eq_refl))
    as (_ & -> & _).
  rewrite Hr. simpl. lia.
Qed.

End PersistentOptions.

(** The third subscription of a loop relaunched at 6001 and at 11002. *)
Lemma persistent_options_only_change_cursor_witness :
  ∃ s,
    Persistent.subscribePersistent Fixture.env Fixture.epochs3 Fixture.opts !! 2%nat = Some s
    ∧ Subscription.opts s = Persistent.relaunch 11002 Fixture.opts.
Proof.
  eexists. split; [vm_compute; reflexivity|].
  refine (persistent_options_only_change_cursor Fixture.env Fixture.epochs3 Fixture.opts 1
            {| Persistent.ep_opened := 6001;
               Persistent.ep_inputs := [Subscription.Timer 11001];
               Persistent.ep_now := 11002 |} _ _ _).
  - reflexivity.
  - vm_compute. reflexivity.
Defined.

(** Both relays signal EOSE to a subscription without a timeout: the loop
    stays at it. *)
Lemma persistent_loop_waits_without_timeout_witness :
  (length (Persistent.subscribePersistent Fixture.env Fixture.epochs_untimed
             Fixture.opts_untimed) ≤ 1)%nat.
Proof.
  apply (persistent_loop_waits_without_timeout Fixture.env).
  - reflexivity.
  - intros ep [= <-]. reflexivity.
Defined.

(* ===================================================================== *)
(** ** More on deduplication                                              *)
(* ===================================================================== *)

Section UniqMore.

Context {A : Type} (f : A → string).

(** The keys kept are the keys of the list that were not kept before. *)
Lemma uniqBy_from_keys s (l : list A) :
  (list_to_set (f <$> uniqBy_from f s l) : gset string) = list_to_set (f <$> l) ∖ s.
Proof.
  revert s. induction l as [|x l IH]; intros s; simpl; [set_solver|].
  case_decide as Hx.
  - rewrite IH. set_solver.
  - simpl. rewrite IH. apply set_eq. intros k.
    destruct (decide (k = f x)) as [->|Hk]; set_solver.
Qed.

Lemma uniqBy_keys (l : list A) :
  (list_to_set (f <$> uniqBy f l) : gset string) = list_to_set (f <$> l).
Proof. unfold uniqBy. rewrite uniqBy_from_keys. set_solver. Qed.

Lemma filter_ext_elem (P Q : A → Prop) `{!∀ x, Decision (P x), !∀ x, Decision (Q x)}
    (l : list A) :
  (∀ y, y ∈ l → P y ↔ Q y) → filter P l = filter Q l.
Proof.
  induction l as [|x l IH]; intros Hext; [done|].
  assert (filter P l = filter Q l) as Hl.
  { apply IH. intros y Hy. apply Hext. by right. }
  destruct (decide (P x)) as [HP|HP].
  - rewrite !filter_cons_True; [by f_equal | by apply Hext; [left|] | done].
  - rewrite !filter_cons_False; [done | | done].
    intros HQ. apply HP, Hext; [by left | done].
Qed.

(** On a list whose keys are distinct, deduplication only removes what was
    kept before. *)
Lemma uniqBy_from_filter s (l : list A) :
  NoDup (f <$> l) → uniqBy_from f s l = filter (λ y, f y ∉ s) l.
Proof.
  revert s. induction l as [|x l IH]; intros s Hnd; simpl; [done|].
  apply NoDup_cons in Hnd as [Hx Hnd].
  case_decide as Hs.
  - rewrite filter_cons_False by tauto. by apply IH.
  - rewrite filter_cons_True by done. f_equal. rewrite IH by done.
    apply filter_ext_elem. intros y Hy.
    assert (f y ≠ f x).
    { intros Heq. apply Hx. rewrite <- Heq. apply list_elem_of_fmap. eauto. }
    set_solver.
Qed.

End UniqMore.

(* ===================================================================== *)
(** ** More on the channel message handler                                *)
(* ===================================================================== *)

Section ChannelMessages.

Context (env : Projections.Env).

Import Projections.

(** X11.  The kind-42 handler writes one cell: the public keys are left
    alone, and so is every channel other than the one the event's "e" tag
    names. *)
Theorem channel_message_touches_one_cell (e : Event.t) (st : State) :
  keys (handler42 env e st) = keys st
  ∧ ∀ k, getMeta env "e" e ≠ Some k →
         channels (handler42 env e st) !! k = channels st !! k.
Proof.
  unfold handler42.
  destruct (getMeta env "e" e) as [cid|] eqn:Hcid; simpl; [|done].
  destruct (negb (bool_decide (cid = ""))); simpl; [|done].
  split; [done|]. intros k Hk. unfold key_update.
  rewrite lookup_insert_ne; [done | congruence].
Qed.

(** X12.  What the kind-42 handler leaves in the cell of the channel named
    by the event's "e" tag, when the messages stored there have distinct
    ids: the event is put in front, a stored message with the same id is
    dropped, and the other messages keep their order; the cell carries the
    channel id and the type ["nip28"]; the event's [created_at] is folded
    by maximum into [last_sent] if the author is one of the user's keys and
    into [last_received] otherwise, and the other of the two is left
    alone; [meta], [nip28], [last_checked] and [updated_at] are kept. *)
Theorem channel_message_goes_in_front (e : Event.t) (st : State) (cid : string) :
  getMeta env "e" e = Some cid →
  cid ≠ "" →
  NoDup (Event.id <$> default []
           (Channel.messages (default Channel.empty (channels st !! cid)))) →
  ∃ c, channels (handler42 env e st) !! cid = Some c
       ∧ Channel.id c = Some cid
       ∧ Channel.type c = Some "nip28"
       ∧ Channel.messages c
         = Some (e :: filter (λ m, Event.id m ≠ Event.id e)
                        (default [] (Channel.messages
                                       (default Channel.empty (channels st !! cid)))))
       ∧ (if bool_decide (Event.pubkey e ∈ keys st)
          then Channel.last_sent c
               = Some (Z.max (or_zero (Channel.last_sent
                                         (default Channel.empty (channels st !! cid))))
                         (Event.created_at e))
               ∧ Channel.last_received c
                 = Channel.last_received (default Channel.empty (channels st !! cid))
          else Channel.last_received c
               = Some (Z.max (or_zero (Channel.last_received
                                         (default Channel.empty (channels st !! cid))))
                         (Event.created_at e))
               ∧ Channel.last_sent c
                 = Channel.last_sent (default Channel.empty (channels st !! cid)))
       ∧ Channel.meta c = Channel.meta (default Channel.empty (channels st !! cid))
       ∧ Channel.nip28 c = Channel.nip28 (default Channel.empty (channels st !! cid))
       ∧ Channel.last_checked c
         = Channel.last_checked (default Channel.empty (channels st !! cid))
       ∧ Channel.updated_at c
         = Channel.updated_at (default Channel.empty (channels st !! cid)).
Proof.
  intros Hcid Hne Hnd. unfold handler42. rewrite Hcid. simpl.
  rewrite bool_decide_false by done. simpl. unfold key_update.
  rewrite lookup_insert_eq. eexists. split; [reflexivity|].
  set (old := default Channel.empty (channels st !! cid)) in *.
  assert (uniqBy Event.id (e :: default [] (Channel.messages old))
          = e :: filter (λ m, Event.id m ≠ Event.id e) (default [] (Channel.messages old)))
    as Hms.
  { unfold uniqBy. simpl. rewrite decide_False by set_solver. f_equal.
    rewrite uniqBy_from_filter by done.
    apply filter_ext_elem. intros y _. set_solver. }
  unfold add_message. fold old.
  destruct (bool_decide (Event.pubkey e ∈ keys st)); simpl; rewrite Hms; done.
Qed.

Lemma list_to_set_uniq (l : list string) :
  (list_to_set (uniq l) : gset string) = list_to_set l.
Proof.
  unfold uniq. rewrite <- (list_fmap_id (uniqBy _ l)).
  rewrite (uniqBy_keys (λ x, x)). by rewrite list_fmap_id.
Qed.

Lemma cell_equiv_refl c : cell_equiv c c.
Proof. unfold cell_equiv. done. Qed.

Lemma cell_equiv_trans c1 c2 c3 : cell_equiv c1 c2 → cell_equiv c2 c3 → cell_equiv c1 c3.
Proof.
  unfold cell_equiv. intros (?&?&?&?&?&?&?&?&?&?) (?&?&?&?&?&?&?&?&?&?).
  split_and!; congruence.
Qed.

Lemma store_equiv_refl st : store_equiv st st.
Proof.
  split; [done|]. intros k. destruct (channels st !! k); constructor.
  apply cell_equiv_refl.
Qed.

Lemma store_equiv_trans st1 st2 st3 :
  store_equiv st1 st2 → store_equiv st2 st3 → store_equiv st1 st3.
Proof.
  intros [Hk1 H1] [Hk2 H2]. split; [congruence|]. intros k.
  specialize (H1 k). specialize (H2 k).
  destruct H1 as [c1 c2 H1|]; inversion H2; subst; constructor.
  by eapply cell_equiv_trans.
Qed.

(** The merge sees of the stored cell only what [cell_equiv] keeps. *)
Lemma add_message_congr pubkeys cid e c1 c2 :
  option_Forall2 cell_equiv c1 c2 →
  cell_equiv (add_message env pubkeys cid e c1) (add_message env pubkeys cid e c2).
Proof.
  intros [c1' c2' (H1&H2&H3&H4&H5&H6&H7&H8&H9&H10)|]; [|apply cell_equiv_refl].
  unfold add_message. simpl.
  assert ((list_to_set (uniq (tag_relays env e ++ default [] (Channel.relays c1')))
             : gset string)
          = list_to_set (uniq (tag_relays env e ++ default [] (Channel.relays c2')))) as Hr.
  { rewrite !list_to_set_uniq, !list_to_set_app_L. by rewrite H9. }
  assert ((list_to_set (Event.id <$> uniqBy Event.id
                          (e :: default [] (Channel.messages c1'))) : gset string)
          = list_to_set (Event.id <$> uniqBy Event.id
                           (e :: default [] (Channel.messages c2')))) as Hm.
  { rewrite !uniqBy_keys, !fmap_cons, !list_to_set_cons. by rewrite H10. }
  destruct (bool_decide (Event.pubkey e ∈ pubkeys)); unfold cell_equiv; simpl.
  - rewrite H4. split_and!; done.
  - rewrite H5. split_and!; done.
Qed.

(** Two messages of one channel merge to the same cell in either order, up
    to [cell_equiv]. *)
Lemma add_message_comm pubkeys cid x y c :
  cell_equiv (add_message env pubkeys cid x (Some (add_message env pubkeys cid y c)))
             (add_message env pubkeys cid y (Some (add_message env pubkeys cid x c))).
Proof.
  assert (∀ (a b r : list string),
            (list_to_set (uniq (a ++ uniq (b ++ r))) : gset string)
            = list_to_set (uniq (b ++ uniq (a ++ r)))) as Hr.
  { intros a b r. rewrite !list_to_set_uniq, !list_to_set_app_L, !list_to_set_uniq,
      !list_to_set_app_L. set_solver. }
  assert (∀ (a b : Event.t) (ms : list Event.t),
            (list_to_set (Event.id <$> uniqBy Event.id (a :: uniqBy Event.id (b :: ms)))
               : gset string)
            = list_to_set (Event.id <$> uniqBy Event.id (b :: uniqBy Event.id (a :: ms))))
    as Hm.
  { intros a b ms.
    rewrite !uniqBy_keys, !fmap_cons, !list_to_set_cons, !uniqBy_keys,
      !fmap_cons, !list_to_set_cons.
    set_solver. }
  unfold add_message.
  destruct (bool_decide (Event.pubkey x ∈ pubkeys)),
           (bool_decide (Event.pubkey y ∈ pubkeys));
    unfold cell_equiv; simpl; split_and!; try done; try apply Hr; try apply Hm.
  all: f_equal; lia.
Qed.

Lemma handler42_congr e st1 st2 :
  store_equiv st1 st2 → store_equiv (handler42 env e st1) (handler42 env e st2).
Proof.
  intros [Hk Hc]. unfold handler42.
  destruct (negb (truthy_str (getMeta env "e" e))); [by split|].
  split; [done|]. intros k. simpl. unfold key_update. rewrite Hk.
  destruct (decide (or_empty (getMeta env "e" e) = k)) as [<-|Hne].
  - rewrite !lookup_insert_eq. constructor. apply add_message_congr, Hc.
  - rewrite !lookup_insert_ne by done. apply Hc.
Qed.

Lemma handler42_comm x y st :
  store_equiv (handler42 env x (handler42 env y st)) (handler42 env y (handler42 env x st)).
Proof.
  unfold handler42.
  destruct (negb (truthy_str (getMeta env "e" x))) eqn:Hx;
    destruct (negb (truthy_str (getMeta env "e" y))) eqn:Hy; simpl;
    rewrite ?Hx, ?Hy; try apply store_equiv_refl.
  set (cx := or_empty (getMeta env "e" x)). set (cy := or_empty (getMeta env "e" y)).
  split; [done|]. intros k. simpl. unfold key_update.
  destruct (decide (cx = cy)) as [Heq|Hne].
  - rewrite <- Heq. rewrite !lookup_insert_eq.
    destruct (decide (cx = k)) as [<-|Hk].
    + rewrite !lookup_insert_eq. constructor. apply add_message_comm.
    + rewrite !lookup_insert_ne by done.
      destruct (channels st !! k); constructor. apply cell_equiv_refl.
  - rewrite (lookup_insert_ne (channels st) cy cx), (lookup_insert_ne (channels st) cx cy)
      by done.
    rewrite (insert_insert_ne _ cx cy) by done.
    match goal with |- option_Forall2 _ ?a ?a => destruct a end;
      constructor; apply cell_equiv_refl.
Qed.

Lemma handle_messages_congr es st1 st2 :
  store_equiv st1 st2 →
  store_equiv (handle_messages env es st1) (handle_messages env es st2).
Proof.
  revert st1 st2. induction es as [|e es IH]; intros st1 st2 Hst; [done|].
  simpl. by apply IH, handler42_congr.
Qed.

(** X13.  The kind-42 handler tolerates any order of arrival: given the same
    events in two different orders, it leaves every channel with the same
    [last_sent] and [last_received], the same set of message ids, the same
    set of relays and the same other fields.  (The order of the messages
    and of the relays follows the order of arrival.) *)
Theorem channel_messages_commute (es es' : list Event.t) (st : State) :
  es ≡ₚ es' →
  store_equiv (handle_messages env es st) (handle_messages env es' st).
Proof.
  intros Hperm. revert st.
  induction Hperm as [|e es es' _ IH|x y es|es1 es2 es3 _ IH1 _ IH2]; intros st.
  - apply store_equiv_refl.
  - simpl. apply IH.
  - simpl. apply handle_messages_congr, handler42_comm.
  - eapply store_equiv_trans; [apply IH1 | apply IH2].
Qed.

(** X14.  The two metadata handlers ignore an event whose content is not
    JSON, or is JSON without a truthy [name]: the kind-40 and the kind-41
    handler both leave the stores as they are, whoever signed the event. *)
Theorem metadata_without_name_is_ignored (e : Event.t) (st : State) :
  Json.truthy (parse_content env e ≫= Json.get "name") = false →
  handler40 env e st = st ∧ handler41 env e st = st.
Proof.
  intros Hname. unfold handler40, handler41.
  destruct (parse_content env e) as [m|]; simpl in Hname.
  - rewrite Hname. split; [done|]. by repeat case_match.
  - split; [done|]. by repeat case_match.
Qed.

End ChannelMessages.

(** [e1] handled on top of the store in which channel-X belongs to alice. *)
Lemma channel_message_goes_in_front_witness :
  ∃ c, Projections.channels (Projections.handler42 Fixture.penv Fixture.e1 Fixture.store)
         !! "channel-X" = Some c
       ∧ Channel.messages c = Some [Fixture.e1].
Proof.
  destruct (channel_message_goes_in_front Fixture.penv Fixture.e1 Fixture.store "channel-X")
    as (c & Hc & _ & _ & Hm & _).
  - reflexivity.
  - discriminate.
  - compute_done.
  - exists c. split; [exact Hc | exact Hm].
Defined.

(** [e1] then [e2], and [e2] then [e1]. *)
Lemma channel_messages_commute_witness :
  store_equiv
    (handle_messages Fixture.penv [Fixture.e1; Fixture.e2] Fixture.store)
    (handle_messages Fixture.penv [Fixture.e2; Fixture.e1] Fixture.store).
Proof.
  apply (channel_messages_commute Fixture.penv). apply perm_swap.
Defined.

(** The owner's update with a content that does not parse. *)
Lemma metadata_without_name_is_ignored_witness :
  Projections.handler41 Fixture.penv Fixture.e41_garbled Fixture.store = Fixture.store.
Proof.
  refine (proj2 (metadata_without_name_is_ignored Fixture.penv Fixture.e41_garbled
                   Fixture.store _)).
  reflexivity.
Defined.

(* ===================================================================== *)
(** ** The router: paths                                                  *)
(* ===================================================================== *)

Section RouterPaths.

Import RouterExtension.

Lemma prefix_slash_append (s : string) : String.prefix "/" (String.append "/" s) = true.
Proof.
  change (String.append "/" s) with (String (Ascii.ascii_of_nat 47) s).
  simpl. by destruct s.
Qed.

Lemma asPath_rooted (parts : list (option string)) :
  asPath parts = "" ∨ String.prefix "/" (asPath parts) = true.
Proof.
  unfold asPath.
  set (path := String.concat "/" _).
  destruct (bool_decide (path = "")) eqn:He; simpl.
  - left. by apply bool_decide_eq_true in He.
  - destruct (String.prefix "/" path) eqn:Hp; simpl; [by right|].
    right. apply prefix_slash_append.
Qed.

(** X15.  [asPath] yields the empty path or a path that begins with a
    slash, whatever parts it is given (absent and empty parts are skipped),
    and a path it has built is left as it is when built again; so the path
    of an extension reached through [at] or [of] is empty or begins with a
    slash. *)
Theorem asPath_is_rooted_and_stable (parts : list (option string)) (ext : t) (p : option string) :
  (asPath parts = "" ∨ String.prefix "/" (asPath parts) = true)
  ∧ asPath [Some (asPath parts)] = asPath parts
  ∧ (path (at_ p ext) = "" ∨ String.prefix "/" (path (at_ p ext)) = true).
Proof.
  split; [apply asPath_rooted|]. split; [|apply asPath_rooted].
  destruct (asPath_rooted parts) as [Hempty|Hroot].
  - rewrite Hempty. reflexivity.
  - unfold asPath at 1. simpl.
    destruct (bool_decide (asPath parts = "")) eqn:He; simpl.
    + apply bool_decide_eq_true in He. rewrite He. reflexivity.
    + simpl. rewrite He, Hroot. reflexivity.
Qed.

End RouterPaths.

(* ===================================================================== *)
(** ** The router: history                                                *)
(* ===================================================================== *)

Section RouterHistory.

Context (env : Router.Env).

Import Router.

Lemma takeWhile_dropWhile {A} (P : A → Prop) `{!∀ x, Decision (P x)} (l : list A) :
  takeWhile P l ++ dropWhile P l = l.
Proof.
  induction l as [|x l IH]; simpl; [done|].
  case_decide; simpl; [by rewrite IH | done].
Qed.

Lemma takeWhile_Forall {A} (P : A → Prop) `{!∀ x, Decision (P x)} (l : list A) :
  Forall P (takeWhile P l).
Proof.
  induction l as [|x l IH]; simpl; [constructor|].
  case_decide; [by constructor | constructor].
Qed.

Lemma dropWhile_head {A} (P : A → Prop) `{!∀ x, Decision (P x)} (l : list A) x rest :
  dropWhile P l = x :: rest → ¬ P x.
Proof.
  induction l as [|y l IH]; simpl; [done|].
  case_decide; [done|]. by intros [= -> ->].
Qed.

Lemma dropWhile_nil {A} (P : A → Prop) `{!∀ x, Decision (P x)} (l : list A) :
  dropWhile P l = [] ↔ Forall P l.
Proof.
  induction l as [|y l IH]; simpl; [by split; [constructor|]|].
  case_decide as Hy.
  - rewrite IH. split; [by constructor | by intros [_ ?]%Forall_cons].
  - split; [done | by intros [? _]%Forall_cons].
Qed.

Lemma dropWhile_length {A} (P : A → Prop) `{!∀ x, Decision (P x)} (l : list A) :
  (length (dropWhile P l) ≤ length l)%nat.
Proof.
  rewrite <- (takeWhile_dropWhile P l) at 2. rewrite length_app. lia.
Qed.

Lemma go_length path config r :
  (length (history (go env path config r).1.1) ≤ Nat.max 101 (length (history r)))%nat
  ∧ ((length (history r) ≤ 101)%nat →
     (length (history (go env path config r).1.1) ≤ 101)%nat).
Proof.
  unfold go.
  destruct (pick env (routes r) _) as [[route params]|]; simpl; [|lia].
  rewrite length_take. lia.
Qed.

Lemma step_length c r :
  (length (history r) ≤ 101)%nat →
  (length (history (step env c r).1.1) ≤ 101)%nat.
Proof.
  intros Hr. destruct c as [path config| |id| |pathname search|path comp opts|path getId];
    simpl; try done.
  - by apply go_length.
  - unfold pop. destruct (history r) as [|top [|second rest]] eqn:Hh; simpl;
      rewrite ?Hh; try done.
    case_decide; simpl; rewrite ?Hh; simpl in *; lia.
  - pose proof (length_filter (λ h, Config.id (HistoryItem.config h) ≠ id) (history r)). lia.
  - unfold clearModals.
    pose proof (dropWhile_length HistoryItem.is_modal (history r)) as Hd.
    destruct (dropWhile HistoryItem.is_modal (history r)); simpl in *; lia.
  - unfold onLocation. case_bool_decide; simpl.
    + destruct (bool_decide (2 ≤ length (history r))%nat); [|done].
      rewrite length_drop. lia.
    + destruct (nonVirtual r) as [|top rest]; simpl; [done|].
      destruct (bool_decide (_ ≠ HistoryItem.path top)); [by apply go_length | done].
Qed.

(** X16.  The history stays bounded: whatever is done to a router ([go],
    [pop], [remove], [clearModals], [register], [extend], location changes
    reported to [listen]), a history of at most 101 entries stays at most
    101 entries long: [go] keeps the new entry and the 100 newest of the
    old ones. *)
Theorem history_stays_bounded (cs : list call) (r : t) :
  (length (history r) ≤ 101)%nat →
  (length (history (run env cs r)) ≤ 101)%nat.
Proof.
  revert r. induction cs as [|c cs IH]; intros r Hr; [done|].
  simpl. apply IH. by apply step_length.
Qed.

(** X17.  [pop] never empties the history and never removes an entry the
    user can see: on a non-empty history it returns and leaves at least
    one entry and the same non-virtual entries; it asks the browser to go
    back exactly when the history has at least two entries and the first
    is not virtual; on an empty history it raises. *)
Theorem pop_keeps_what_is_shown (r : t) :
  (history r = [] → (pop r).2 = Threw)
  ∧ (history r ≠ [] →
     (pop r).2 = Returned ()
     ∧ history (pop r).1.1 ≠ []
     ∧ nonVirtual (pop r).1.1 = nonVirtual r
     ∧ ((pop r).1.2 = [Back]
        ↔ ∃ top second rest, history r = top :: second :: rest
                             ∧ ¬ HistoryItem.is_virtual top)).
Proof.
  unfold pop, nonVirtual.
  destruct (history r) as [|top [|second rest]] eqn:Hh; simpl.
  - done.
  - split; [done|]. intros _. rewrite Hh. split_and!; try done.
    split; [done | by intros (?&?&?&?&_)].
  - split; [done|]. intros _. case_decide as Hv; simpl; rewrite ?Hh.
    + split_and!; try done.
      * by rewrite (filter_cons_False _ top) by tauto.
      * split; [done|]. intros (?&?&?&[= <- <- <-]&?). done.
    + split_and!; try done. split; [|done]. intros _. eauto.
Qed.

(** X18.  [remove(id)] removes exactly the entries whose [config.id] is
    [id] and keeps the others in order; removing again changes nothing,
    and two removals can be made in either order.  With [id] undefined it
    removes every entry that has no id. *)
Theorem remove_is_exact (id id' : option string) (r : t) :
  (∀ h, h ∈ history (remove id r)
        ↔ h ∈ history r ∧ Config.id (HistoryItem.config h) ≠ id)
  ∧ history (remove id r) `sublist_of` history r
  ∧ remove id (remove id r) = remove id r
  ∧ remove id (remove id' r) = remove id' (remove id r).
Proof.
  unfold remove. simpl. split_and!.
  - intros h. by rewrite list_elem_of_filter, (comm (∧)).
  - apply sublist_filter.
  - unfold with_history. simpl. f_equal.
    rewrite list_filter_filter. apply list_filter_iff. tauto.
  - unfold with_history. simpl. f_equal.
    rewrite !list_filter_filter. apply list_filter_iff. tauto.
Qed.

(** X19.  [clearModals] drops the modal entries at the head of the history
    and nothing else: when some entry is not modal it returns, the history
    then starts at the first such entry, everything before it was modal,
    and the browser is sent to that entry's path; when every entry is
    modal (or there is none) it raises.  When no entry is virtual, no
    modal is shown afterwards. *)
Theorem clearModals_stops_at_first_page (r : t) :
  (Forall HistoryItem.is_modal (history r) → (clearModals r).2 = Threw)
  ∧ (¬ Forall HistoryItem.is_modal (history r) →
     (clearModals r).2 = Returned ()
     ∧ ∃ gone top rest,
         history r = gone ++ top :: rest
         ∧ Forall HistoryItem.is_modal gone
         ∧ ¬ HistoryItem.is_modal top
         ∧ history (clearModals r).1.1 = top :: rest
         ∧ (clearModals r).1.2 = [Navigate (HistoryItem.path top) None]
         ∧ (Forall (λ h, ¬ HistoryItem.is_virtual h) (history r) →
            modal (clearModals r).1.1 = None)).
Proof.
  unfold clearModals.
  pose proof (takeWhile_dropWhile HistoryItem.is_modal (history r)) as Hsplit.
  pose proof (takeWhile_Forall HistoryItem.is_modal (history r)) as Hgone.
  destruct (dropWhile HistoryItem.is_modal (history r)) as [|top rest] eqn:Hd.
  - apply dropWhile_nil in Hd. split; [done | by intros []].
  - pose proof (dropWhile_head _ _ _ _ Hd) as Htop.
    split.
    { intros Hall. rewrite <- Hsplit in Hall.
      apply Forall_app in Hall as [_ Hall]. by apply Forall_cons in Hall as [? _]. }
    intros _. split; [done|].
    exists (takeWhile HistoryItem.is_modal (history r)), top, rest.
    split_and!; try done.
    intros Hnv. rewrite <- Hsplit in Hnv.
    apply Forall_app in Hnv as [_ Hnv]. apply Forall_cons in Hnv as [Hv _].
    unfold modal, modals, nonVirtual. simpl.
    rewrite filter_cons_True by done. simpl. by rewrite decide_False.
Qed.

End RouterHistory.

(* ===================================================================== *)
(** ** The router: what is shown                                          *)
(* ===================================================================== *)

Section RouterViews.

Context (env : Router.Env).

Import Router.

Lemma rooted_prefix path : String.prefix "/" (rooted path) = true.
Proof.
  unfold rooted. destruct (String.prefix "/" path) eqn:Hp; simpl; [done|].
  apply prefix_slash_append.
Qed.

(** What [go] leaves when a route matches. *)
Lemma go_matched path config r route params :
  pick env (routes r) (rooted path) = Some (route, params) →
  go env path config r =
    (with_history
       (HistoryItem.mk (rooted path) params config route
          :: take 100 (if truthy_bool (Config.replace config)
                       then drop 1 (history r) else history r)) r,
     if negb (truthy_bool (Config.virtual config))
     then [Navigate (rooted path) (Config.replace config)] else [],
     Returned ()).
Proof. intros Hpick. unfold go. fold (rooted path). by rewrite Hpick. Qed.

(** X20.  Let the route for an extension's path (with its query) match and
    the config not be virtual.  Then [open] always shows the new entry as
    the modal, whatever [modal] the config says, and [push] with a
    non-modal config shows it as the page with no modal over it.  Either
    way the entry's context is the extension's own ([cx]): a context given
    in the config is discarded. *)
Theorem open_shows_a_modal_push_a_page
    (ext : RouterExtension.t) (config : Config.t) (r : t)
    (route : Route.t) (params : gmap string Json.t) :
  pick env (routes r) (rooted (target env ext)) = Some (route, params) →
  truthy_bool (Config.virtual config) = false →
  (∃ item, head (history (open env ext config r).1.1) = Some item
           ∧ modal (open env ext config r).1.1 = Some item
           ∧ HistoryItem.path item = rooted (target env ext)
           ∧ Config.context (HistoryItem.config item) = RouterExtension.context ext)
  ∧ (truthy_bool (Config.modal config) = false →
     ∃ item, head (history (push env ext config r).1.1) = Some item
             ∧ page (push env ext config r).1.1 = Some item
             ∧ modal (push env ext config r).1.1 = None
             ∧ HistoryItem.path item = rooted (target env ext)
             ∧ Config.context (HistoryItem.config item) = RouterExtension.context ext).
Proof.
  intros Hpick Hvirtual. split.
  - unfold open, ext_go. fold (target env ext). rewrite (go_matched _ _ _ _ _ Hpick).
    eexists. split; [reflexivity|]. split_and!; try done.
    unfold modal, modals, nonVirtual. simpl.
    rewrite filter_cons_True by (unfold HistoryItem.is_virtual; simpl; by rewrite Hvirtual).
    done.
  - intros Hmodal. unfold push, ext_go. fold (target env ext).
    rewrite (go_matched _ _ _ _ _ Hpick).
    eexists. split; [reflexivity|]. split_and!; try done.
    + unfold page, pages, nonVirtual. simpl.
      rewrite filter_cons_True by (unfold HistoryItem.is_virtual; simpl; by rewrite Hvirtual).
      rewrite filter_cons_True by (unfold HistoryItem.is_modal; simpl; by rewrite Hmodal).
      done.
    + unfold modal, modals, nonVirtual. simpl.
      rewrite filter_cons_True by (unfold HistoryItem.is_virtual; simpl; by rewrite Hvirtual).
      simpl. rewrite decide_False; [done|].
      unfold HistoryItem.is_modal. simpl. by rewrite Hmodal.
Qed.

(** X21.  When the browser reports back the location the router has just
    navigated to, the router leaves everything as it is, unless the entry
    shown before (the newest non-virtual one among those kept) has that
    same path: then the report is read as a step back and the entry just
    added is taken off again. *)
Theorem location_echo_after_go
    (path pathname search : string) (config : Config.t) (r : t)
    (route : Route.t) (params : gmap string Json.t) :
  pick env (routes r) (rooted path) = Some (route, params) →
  truthy_bool (Config.virtual config) = false →
  location_path pathname search = rooted path →
  let kept := take 100 (if truthy_bool (Config.replace config)
                        then drop 1 (history r) else history r) in
  let before := HistoryItem.path <$> head (nonVirtual (with_history kept r)) in
  onLocation env pathname search (go env path config r).1.1
  = if bool_decide (before = Some (rooted path))
    then (with_history kept r, [], Returned ())
    else ((go env path config r).1.1, [], Returned ()).
Proof.
  intros Hpick Hvirtual Hloc kept before.
  rewrite (go_matched _ _ _ _ _ Hpick). fold kept. unfold fst.
  unfold onLocation. fold (location_path pathname search). rewrite Hloc.
  assert (nonVirtual (with_history (HistoryItem.mk (rooted path) params config route :: kept) r)
          = HistoryItem.mk (rooted path) params config route
              :: nonVirtual (with_history kept r)) as Hnv.
  { unfold nonVirtual. simpl.
    by rewrite filter_cons_True
      by (unfold HistoryItem.is_virtual; simpl; by rewrite Hvirtual). }
  rewrite Hnv.
  assert (HistoryItem.path <$>
            (HistoryItem.mk (rooted path) params config route
               :: nonVirtual (with_history kept r)) !! 1%nat = before) as ->.
  { unfold before. by destruct (nonVirtual (with_history kept r)). }
  case_bool_decide as Hb.
  - f_equal. f_equal. unfold with_history. simpl. f_equal.
    assert (kept ≠ []) as Hkept.
    { intros Hnil. unfold before, nonVirtual in Hb. simpl in Hb. by rewrite Hnil in Hb. }
    destruct kept; [done|]. done.
  - rewrite bool_decide_false; [done|]. simpl. tauto.
Qed.

Lemma step_rooted c r :
  Forall is_rooted (history r) → Forall is_rooted (history (step env c r).1.1).
Proof.
  intros Hr.
  assert (∀ path config, Forall is_rooted (history (go env path config r).1.1)) as Hgo.
  { intros path config. unfold go. fold (rooted path).
    destruct (pick env (routes r) (rooted path)) as [[route params]|]; simpl; [|done].
    constructor; [apply rooted_prefix|].
    apply Forall_take. destruct (truthy_bool _); [by apply Forall_drop | done]. }
  destruct c as [path config| |id| |pathname search|path comp opts|path getId];
    simpl; try done.
  - unfold pop. destruct (history r) as [|top [|second rest]] eqn:Hh; simpl;
      rewrite ?Hh; try done.
    case_decide; simpl; rewrite ?Hh; [|done]. by apply Forall_cons in Hr as [_ ?].
  - apply Forall_forall. intros h [_ Hh]%list_elem_of_filter.
    by apply (proj1 (Forall_forall _ _) Hr).
  - unfold clearModals.
    pose proof (takeWhile_dropWhile HistoryItem.is_modal (history r)) as Hsplit.
    rewrite <- Hsplit in Hr. apply Forall_app in Hr as [_ Hr].
    destruct (dropWhile HistoryItem.is_modal (history r)); simpl; [constructor | done].
  - unfold onLocation. case_bool_decide; simpl.
    + destruct (bool_decide (2 ≤ length (history r))%nat); [by apply Forall_drop | done].
    + destruct (nonVirtual r) as [|top rest]; simpl; [done|].
      destruct (bool_decide (_ ≠ HistoryItem.path top)); [apply Hgo | done].
Qed.

(** X22.  Every entry of the history has a path that begins with a slash,
    whatever paths [go] is given and whatever else is done to the router:
    [go] puts the slash in front before it looks the path up or stores
    it, and nothing else writes a path. *)
Theorem history_paths_stay_rooted (cs : list call) (r : t) :
  Forall is_rooted (history r) →
  Forall is_rooted (history (run env cs r)).
Proof.
  revert r. induction cs as [|c cs IH]; intros r Hr; [done|].
  simpl. apply IH. by apply step_rooted.
Qed.

End RouterViews.

(** A few calls on the router that shows a menu over a login modal over
    the home page. *)
Lemma history_stays_bounded_witness :
  (length (Router.history
             (Router.run Fixture.renv
                [Router.Go "login" Config.empty; Router.Pop; Router.ClearModals]
                Fixture.router)) ≤ 101)%nat.
Proof.
  apply (history_stays_bounded Fixture.renv). simpl. lia.
Defined.

(** [pop] on that router takes the virtual menu off. *)
Lemma pop_keeps_what_is_shown_witness :
  Router.nonVirtual (Router.pop Fixture.router).1.1 = Router.nonVirtual Fixture.router.
Proof.
  destruct (proj2 (pop_keeps_what_is_shown Fixture.router)) as (_ & _ & Hshown & _).
  - discriminate.
  - exact Hshown.
Defined.

(** [clearModals] on that router: the first entry, the menu, is not modal. *)
Lemma clearModals_stops_at_first_page_witness :
  (Router.clearModals Fixture.router).2 = Returned ().
Proof.
  refine (proj1 (proj2 (clearModals_stops_at_first_page Fixture.router) _)).
  by intros [Hmenu _]%Forall_cons.
Defined.

(** The login extension opened over the home page. *)
Lemma open_shows_a_modal_push_a_page_witness :
  ∃ item,
    Router.modal (Router.open Fixture.renv Fixture.login_ext Config.empty
                    Fixture.router_home).1.1 = Some item
    ∧ HistoryItem.path item = "/login".
Proof.
  destruct (proj1 (open_shows_a_modal_push_a_page Fixture.renv Fixture.login_ext
                     Config.empty Fixture.router_home (Route.mk "/login" 2 None) ∅
                     eq_refl eq_refl))
    as (item & _ & Hmodal & Hpath & _).
  exists item. split; [exact Hmodal | exact Hpath].
Defined.

(** The router goes from the home page to the login page and the browser
    reports the new location. *)
Lemma location_echo_after_go_witness :
  Router.onLocation Fixture.renv "/login" ""
    (Router.go Fixture.renv "login" Config.empty Fixture.router_home).1.1
  = ((Router.go Fixture.renv "login" Config.empty Fixture.router_home).1.1, [], Returned ()).
Proof.
  refine (eq_trans
            (location_echo_after_go Fixture.renv "login" "/login" "" Config.empty
               Fixture.router_home (Route.mk "/login" 2 None) ∅ eq_refl eq_refl eq_refl) _).
  reflexivity.
Defined.

(** A path given without its slash, then a [pop]. *)
Lemma history_paths_stay_rooted_witness :
  Forall Router.is_rooted
    (Router.history
       (Router.run Fixture.renv [Router.Go "login" Config.empty; Router.Pop] Fixture.router)).
Proof.
  apply (history_paths_stay_rooted Fixture.renv). repeat constructor.
Defined.

(* ===================================================================== *)
(** ** More on the subscription: a rejected first delivery                *)
(* ===================================================================== *)

Section Shadowing.

Context (env : Env).

Import Subscription.

(** X23.  The first delivery of an id decides for the subscription's whole
    life: [onEvent] records the id in [seen] before it checks the event,
    so when the first event delivered under an id fails the signature check
    or the filters, no event with that id is ever emitted or pushed to the
    Projection Registry afterwards, not even a copy that would pass. *)
Theorem rejected_first_delivery_shadows_the_id
    (s : t) (url : string) (event : Event.t) (ins : list input) :
  seen s !! Event.id event = None →
  truthy_bool (tryFunc (verifySignature env (Event.default_content event))) = false
  ∨ matchFilters env (Opts.filters (opts s)) (Event.default_content event) = false →
  occurrences (Event.id event) (emitted (run env (Deliver url event :: ins) s).2) = 0%nat
  ∧ occurrences (Event.id event) (projected (run env (Deliver url event :: ins) s).2) = 0%nat.
Proof.
  intros Hnew Hbad. simpl.
  pose proof (onEvent_seen_same env url event s) as Hseen.
  assert (emitted (onEvent env url event s).2 = []
          ∧ projected (onEvent env url event s).2 = []) as [He Hp].
  { rewrite (onEvent_first env _ _ _ Hnew). unfold snd.
    destruct (truthy_bool (tryFunc (verifySignature env (Event.default_content event))));
      cbv [negb]; [|done].
    destruct Hbad as [?| ->]; done. }
  destruct (onEvent env url event s) as [s1 tr1]. unfold fst, snd in *.
  pose proof (run_seen env ins s1 (Event.id event) Hseen) as (_ & _ & Hp' & He').
  destruct (run env ins s1) as [s2 tr2]. unfold fst, snd in *.
  rewrite emitted_app, projected_app, !occurrences_app, He, Hp, He', Hp'. done.
Qed.

End Shadowing.

(** R1 delivers a forged copy of [e1] first; R2 delivers the genuine [e1]. *)
Lemma rejected_first_delivery_shadows_the_id_witness :
  occurrences "A"
    (emitted (Subscription.run Fixture.env
                [Subscription.Deliver Fixture.R1 Fixture.e1_forged;
                 Subscription.Deliver Fixture.R2 Fixture.e1] Fixture.fresh).2) = 0%nat.
Proof.
  refine (proj1 (rejected_first_delivery_shadows_the_id Fixture.env Fixture.fresh
                   Fixture.R1 Fixture.e1_forged
                   [Subscription.Deliver Fixture.R2 Fixture.e1] _ _)).
  - reflexivity.
  - left. reflexivity.
Defined.
